(** * mergeResolvers: a shallow embedding of packages/merge/src/merge-resolvers.ts

    The development has two layers.

    - [Section Resolvers] models JavaScript values as finite trees and
      [mergeResolvers] as a total function on them.  This is the layer on
      which results are compared structurally.
    - [Module Store] models the same code over a heap of objects addressed by
      references, so that two places holding the same object are aliases; it
      is the layer on which mutation of the inputs is observed.
    - [Section Refinement] relates the two: what the store model returns
      reads as what the tree model returns, as long as no exclusion names a
      field.

    Modelling scope.  Objects are plain records of own properties kept in
    insertion order (no prototype chain; property names that look like array
    indices, which JavaScript enumerates first, do not occur as GraphQL
    names).  A function is modelled by its call behaviour only; it carries no
    own property.  Numbers are integers.  In the tree model a value held in
    two places is two values: it describes calls whose definitions share no
    object, and the store model describes the others. *)

From Stdlib Require Import List String Ascii ZArith Bool Arith Lia.
From Stdlib Require Import Permutation.
Import ListNotations.
Local Open Scope string_scope.
Local Open Scope list_scope.

Set Implicit Arguments.
Set Warnings "-register-all".

(* ------------------------------------------------------------------ *)
(** ** Strings: [String.prototype.split] with a one-character separator *)

(** [split sep s] is [s.split(sep)]: the list of the maximal segments of [s]
    between occurrences of [sep]; it is never empty. *)
Fixpoint split (sep : ascii) (s : string) : list string :=
  match s with
  | EmptyString => [EmptyString]
  | String c rest =>
      if Ascii.eqb c sep then EmptyString :: split sep rest
      else match split sep rest with
           | [] => [String c EmptyString]
           | seg :: segs => String c seg :: segs
           end
  end.

(** The characters of [s] before its first [sep] (all of [s] if there is none). *)
Fixpoint before_sep (sep : ascii) (s : string) : string :=
  match s with
  | EmptyString => EmptyString
  | String c rest => if Ascii.eqb c sep then EmptyString else String c (before_sep sep rest)
  end.

(** The characters of [s] after its first [sep], if it has one. *)
Fixpoint after_sep (sep : ascii) (s : string) : option string :=
  match s with
  | EmptyString => None
  | String c rest => if Ascii.eqb c sep then Some rest else after_sep sep rest
  end.

Definition dot : ascii := "."%char.

(* ------------------------------------------------------------------ *)
(** ** Own properties of an object, in insertion order *)

Section Properties.

Context {V : Type}.

(** [o[k]] on the property list of [o] *)
Fixpoint getProp (k : string) (fs : list (string * V)) : option V :=
  match fs with
  | [] => None
  | (k', v) :: rest => if k =? k' then Some v else getProp k rest
  end.

(** [o[k] = v]: an existing key keeps its place, a new key goes last. *)
Fixpoint setProp (k : string) (v : V) (fs : list (string * V))
  : list (string * V) :=
  match fs with
  | [] => [(k, v)]
  | (k', v') :: rest =>
      if k =? k' then (k, v) :: rest else (k', v') :: setProp k v rest
  end.

(** [delete o[k]] *)
Fixpoint deleteProp (k : string) (fs : list (string * V)) : list (string * V) :=
  match fs with
  | [] => []
  | (k', v) :: rest =>
      if k =? k' then deleteProp k rest else (k', v) :: deleteProp k rest
  end.

End Properties.

Fixpoint distinct (l : list string) : bool :=
  match l with
  | [] => true
  | k :: r => negb (existsb (String.eqb k) r) && distinct r
  end.

(* ------------------------------------------------------------------ *)
(** ** Values *)

Section Resolvers.

(** [Args] is the type of the runtime argument lists handed to a function,
    [World] the state a call may read and change. *)
Context {Args World : Type}.

Inductive Value : Type :=
| VUndefined
| VNull
| VBool (b : bool)
| VNum (n : Z)
| VStr (s : string)
| VFun (f : Args -> World -> Value * World)
| VMap (fields : list (string * Value))
| VArr (elems : list Value).

Definition Fields : Type := list (string * Value).

(** *** Induction on values

    The principle passes through the property lists and the arrays. *)
Section Value_induction.

Variable P : Value -> Prop.
Hypothesis Hundef : P VUndefined.
Hypothesis Hnull : P VNull.
Hypothesis Hbool : forall b, P (VBool b).
Hypothesis Hnum : forall n, P (VNum n).
Hypothesis Hstr : forall s, P (VStr s).
Hypothesis Hfun : forall f, P (VFun f).
Hypothesis Hmap : forall fs, Forall (fun kv => P (snd kv)) fs -> P (VMap fs).
Hypothesis Harr : forall l, Forall P l -> P (VArr l).

Fixpoint Value_nested_ind (v : Value) : P v :=
  match v with
  | VUndefined => Hundef
  | VNull => Hnull
  | VBool b => Hbool b
  | VNum n => Hnum n
  | VStr s => Hstr s
  | VFun f => Hfun f
  | VMap fs =>
      Hmap ((fix go (l : Fields) : Forall (fun kv => P (snd kv)) l :=
               match l with
               | [] => Forall_nil _
               | kv :: r => Forall_cons kv (Value_nested_ind (snd kv)) (go r)
               end) fs)
  | VArr l =>
      Harr ((fix go (l : list Value) : Forall P l :=
               match l with
               | [] => Forall_nil _
               | x :: r => Forall_cons x (Value_nested_ind x) (go r)
               end) l)
  end.

End Value_induction.

Inductive JsType : Type :=
| TUndefined | TObject | TBoolean | TNumber | TString | TFunction.

(** [typeof v]; note [typeof null === 'object'] and [typeof [] === 'object']. *)
Definition typeof (v : Value) : JsType :=
  match v with
  | VUndefined => TUndefined
  | VNull => TObject
  | VBool _ => TBoolean
  | VNum _ => TNumber
  | VStr _ => TString
  | VFun _ => TFunction
  | VMap _ => TObject
  | VArr _ => TObject
  end.

Definition JsType_eqb (a b : JsType) : bool :=
  match a, b with
  | TUndefined, TUndefined | TObject, TObject | TBoolean, TBoolean
  | TNumber, TNumber | TString, TString | TFunction, TFunction => true
  | _, _ => false
  end.

(** [Array.isArray v] *)
Definition isArray (v : Value) : bool :=
  match v with VArr _ => true | _ => false end.

Definition isFunction (v : Value) : bool :=
  match v with VFun _ => true | _ => false end.

(** A Map of the specification: a plain object. *)
Definition isMap (v : Value) : bool :=
  match v with VMap _ => true | _ => false end.

(** JavaScript truthiness, as tested by [if (v)] and [!v]. *)
Definition truthy (v : Value) : bool :=
  match v with
  | VUndefined | VNull => false
  | VBool b => b
  | VNum n => negb (n =? 0)%Z
  | VStr s => negb (s =? "")
  | VFun _ | VMap _ | VArr _ => true
  end.

(** Representation invariant of an object: its keys are pairwise distinct,
    at every depth below a mapping or an array. *)
Fixpoint wf (v : Value) : bool :=
  match v with
  | VMap fs =>
      distinct (map fst fs) &&
      (fix wfs (l : Fields) : bool :=
         match l with
         | [] => true
         | (_, x) :: r => wf x && wfs r
         end) fs
  | VArr l =>
      (fix wfl (l : list Value) : bool :=
         match l with
         | [] => true
         | x :: r => wf x && wfl r
         end) l
  | _ => true
  end.

(* ------------------------------------------------------------------ *)
(** ** Deep merge *)

(** Modelled from the spec: [mergeDeep] is imported from
    [@graphql-tools/utils], which is not among the sources.  The
    specification describes it as: "recursively merge mapping values
    key-by-key; when both sides hold a mapping for the same key, merge the two
    mappings recursively; otherwise the later value replaces the earlier one;
    arrays and scalars are replaced wholesale", and non-mapping inputs "are
    tolerated silently".  So merging a mapping [target] with a mapping
    [source] starts from the properties of [target] and assigns every
    property of [source] in turn, and a [source] that is not a mapping leaves
    [target] as it is. *)
Fixpoint mergeDeep (target source : Value) {struct source} : Value :=
  match target, source with
  | VMap tf, VMap sf =>
      VMap
        ((fix assign (out : Fields) (sf : Fields) {struct sf} : Fields :=
            match sf with
            | [] => out
            | (k, sv) :: rest =>
                let v :=
                  match getProp k tf, sv with
                  | Some (VMap tfk), VMap _ => mergeDeep (VMap tfk) sv
                  | _, _ => sv
                  end in
                assign (setProp k v out) rest
            end) tf sf)
  | _, _ => target
  end.

(** The empty object literal [{}]. *)
Definition emptyMap : Value := VMap [].

(** [arr.reduce(mergeDeep, {})]: the accumulator starts as a new [{}] and is
    merged with each element in turn.  ([reduce] also hands its callback the
    index and the array, neither of which is a mapping.) *)
Definition mergeAll (arr : list Value) : Value :=
  fold_left mergeDeep arr emptyMap.

(* ------------------------------------------------------------------ *)
(** ** Calling functions *)

(** [f(...args)].  Only function values are ever called by the code. *)
Definition call (f : Value) (args : Args) (w : World) : Value * World :=
  match f with
  | VFun g => g args w
  | _ => (VUndefined, w)
  end.

(** [factories.map(factory => factory(...args))]: the calls happen one after
    the other, from the first element to the last. *)
Fixpoint callEach (factories : list Value) (args : Args) (w : World)
  : list Value * World :=
  match factories with
  | [] => ([], w)
  | f :: rest =>
      let (v, w1) := call f args w in
      let (vs, w2) := callEach rest args w1 in
      (v :: vs, w2)
  end.

(* ------------------------------------------------------------------ *)
(** ** mergeResolvers *)

Record MergeResolversOptions : Type :=
  { exclusions : option (list string) }.

(** The two arrays filled by the loop of lines 59-71. *)
Record Collected : Type :=
  { resolversFactories : list Value;
    resolvers : list Value }.

Definition noneCollected : Collected :=
  {| resolversFactories := []; resolvers := [] |}.

(** Lines 66-70, for a definition that is no longer an array. *)
Definition classify (acc : Collected) (resolversDefinition : Value) : Collected :=
  match typeof resolversDefinition with
  | TFunction =>
      {| resolversFactories := resolversFactories acc ++ [resolversDefinition];
         resolvers := resolvers acc |}
  | TObject =>
      {| resolversFactories := resolversFactories acc;
         resolvers := resolvers acc ++ [resolversDefinition] |}
  | _ => acc
  end.

(** Lines 74-77: the function returned when a factory was collected. *)
Definition mergedFactory (c : Collected) : Value :=
  VFun (fun args w =>
          let (resultsOfFactories, w') := callEach (resolversFactories c) args w in
          (mergeAll (resolvers c ++ resultsOfFactories), w')).

(** Lines 72-80. *)
Definition mergeCollected (c : Collected) : Value :=
  match resolversFactories c with
  | [] => mergeAll (resolvers c)
  | _ :: _ => mergedFactory c
  end.

(** [o[k]] and [delete o[k]] on a value; only plain objects have own
    properties in this model. *)
Definition getKey (k : string) (o : Value) : option Value :=
  match o with
  | VMap fs => getProp k fs
  | _ => None
  end.

Definition deleteKey (k : string) (o : Value) : Value :=
  match o with
  | VMap fs => VMap (deleteProp k fs)
  | _ => o
  end.

(** [o[k]] is replaced by [v]; used for the effect of a deletion inside the
    object held at [o[k]]. *)
Definition replaceKey (k : string) (v : Value) (o : Value) : Value :=
  match o with
  | VMap fs => VMap (setProp k v fs)
  | _ => o
  end.

(** Lines 83-88, one exclusion.  [fieldName] is [undefined] when the split
    has a single segment; [!fieldName] also holds of the empty string. *)
Definition applyExclusion (result : Value) (exclusion : string) : Value :=
  let parts := split dot exclusion in
  let typeName := nth 0 parts "" in
  match nth_error parts 1 with
  | None => deleteKey typeName result
  | Some fieldName =>
      if (fieldName =? "") || (fieldName =? "*") then deleteKey typeName result
      else
        match getKey typeName result with
        | Some held =>
            if truthy held
            then replaceKey typeName (deleteKey fieldName held) result
            else result
        | None => result
        end
  end.

(** Lines 81-90. *)
Definition applyExclusions (options : option MergeResolversOptions)
           (result : Value) : Value :=
  match options with
  | Some {| exclusions := Some excl |} => fold_left applyExclusion excl result
  | _ => result
  end.

(** Lines 58-91, once every array among the definitions has been replaced by
    its merge. *)
Definition mergeFlat (flat : list Value)
           (options : option MergeResolversOptions) : Value :=
  applyExclusions options (mergeCollected (fold_left classify flat noneCollected)).

(** The three cases on the length of the definitions (lines 46, 50, 58). *)
Definition dispatch (flat : list Value)
           (options : option MergeResolversOptions) : Value :=
  match flat with
  | [] => emptyMap
  | [singleDefinition] => singleDefinition
  | _ => mergeFlat flat options
  end.

(** Lines 52-53 and 63-65: an array is replaced by [mergeResolvers] of it,
    called without options; anything else is kept. *)
Fixpoint flatten (resolversDefinition : Value) : Value :=
  match resolversDefinition with
  | VArr group => dispatch (map flatten group) None
  | _ => resolversDefinition
  end.

(** [mergeResolvers(resolversDefinitions, options)]; [None] stands for an
    absent ([undefined] or [null]) first argument. *)
Definition mergeResolvers (resolversDefinitions : option (list Value))
           (options : option MergeResolversOptions) : Value :=
  match resolversDefinitions with
  | None => emptyMap
  | Some defs => dispatch (map flatten defs) options
  end.

(** One turn of the loop of lines 62-71; [recur group] is the nested call
    [mergeResolvers(group)] of line 64. *)
Definition collectStep (recur : list Value -> option Value)
           (acc : option Collected) (resolversDefinition : Value)
  : option Collected :=
  match acc with
  | None => None
  | Some c =>
      match resolversDefinition with
      | VArr group =>
          match recur group with
          | Some merged => Some (classify c merged)
          | None => None
          end
      | _ => Some (classify c resolversDefinition)
      end
  end.

(** The same function with the recursion of the source written as it is, one
    unit of [fuel] per nested call; [None] is fuel exhausted. *)
Fixpoint mergeResolvers_fuel (fuel : nat)
         (resolversDefinitions : option (list Value))
         (options : option MergeResolversOptions) : option Value :=
  match fuel with
  | O => None
  | S fuel' =>
      match resolversDefinitions with
      | None | Some [] => Some emptyMap
      | Some [singleDefinition] =>
          match singleDefinition with
          | VArr group => mergeResolvers_fuel fuel' (Some group) None
          | _ => Some singleDefinition
          end
      | Some defs =>
          let recur group := mergeResolvers_fuel fuel' (Some group) None in
          match fold_left (collectStep recur) defs (Some noneCollected) with
          | Some c => Some (applyExclusions options (mergeCollected c))
          | None => None
          end
      end
  end.

(* ------------------------------------------------------------------ *)
(** ** Notions used to state the properties *)

(** Nesting depth of arrays: the number of nested calls a definition needs. *)
Fixpoint depth (v : Value) : nat :=
  match v with
  | VArr group => S (list_max (map depth group))
  | _ => 0
  end.

Definition depthAll (defs : list Value) : nat := list_max (map depth defs).

(** The Factories and the Maps among the definitions, once Groups are
    flattened, each in the order of the definitions. *)
Definition factoriesOf (defs : list Value) : list Value :=
  filter isFunction (map flatten defs).

Definition mapsOf (defs : list Value) : list Value :=
  filter isMap (map flatten defs).

(** [typeof v === 'object'] *)
Definition isObjectType (v : Value) : bool := JsType_eqb (typeof v) TObject.

(** Two results are the same when they are equal or are functions that
    behave alike on every call. *)
Definition sameResult (r1 r2 : Value) : Prop :=
  match r1, r2 with
  | VFun f, VFun g => forall args w, f args w = g args w
  | _, _ => r1 = r2
  end.

(** [M[T][f]] for a Map [M] whose entry for [T] is a mapping. *)
Definition fieldAt (T f : string) (M : Value) : option Value :=
  match getKey T M with
  | Some (VMap fs) => getProp f fs
  | _ => None
  end.

(** [M] says nothing about field [f] of type [T]: it has no entry for [T], or
    a mapping without [f]. *)
Definition silentOn (T f : string) (M : Value) : bool :=
  match getKey T M with
  | None => true
  | Some (VMap fs) => match getProp f fs with None => true | Some _ => false end
  | Some _ => false
  end.

(** What a later value [v] makes of the value held before at the same key. *)
Definition laterOver (earlier : option Value) (v : Value) : Value :=
  match earlier, v with
  | Some (VMap e), VMap _ => mergeDeep (VMap e) v
  | _, _ => v
  end.

(** The assignment loop inside [mergeDeep], as a function of its own. *)
Fixpoint assignProps (tf out sf : Fields) : Fields :=
  match sf with
  | [] => out
  | (k, sv) :: rest =>
      assignProps tf (setProp k (laterOver (getProp k tf) sv) out) rest
  end.

(** The claim of the specification about one exclusion, word for word: the
    string is cut at its first dot. *)
Definition exclusionAsClaimed (result : Value) (exclusion : string) : Value :=
  let typeName := before_sep dot exclusion in
  match after_sep dot exclusion with
  | None => deleteKey typeName result
  | Some fieldName =>
      if fieldName =? "*" then deleteKey typeName result
      else
        match getKey typeName result with
        | Some held => replaceKey typeName (deleteKey fieldName held) result
        | None => result
        end
  end.

(** The type name and the field name the code reads from an exclusion: the
    text before the first dot, and the text between the first dot and the
    second (or the end), if there is a first dot. *)
Definition typeNameOf (exclusion : string) : string :=
  before_sep dot exclusion.

Definition fieldNameOf (exclusion : string) : option string :=
  match after_sep dot exclusion with
  | None => None
  | Some rest => Some (before_sep dot rest)
  end.

(** An exclusion removes a whole type when it names no field, an empty field
    or the field [*]. *)
Definition wholeType (exclusion : string) : bool :=
  match fieldNameOf exclusion with
  | None => true
  | Some f => (f =? "") || (f =? "*")
  end.

End Resolvers.

(* ================================================================== *)
(** * The same code over a store of objects *)

(** Objects live in a store and are held by reference: copying a reference
    does not copy the object, and a write through one reference is seen
    through every other.  Calls of functions are not modelled in this layer
    (the tree model has them); a function is an opaque object. *)
Module Store.

Definition loc : Type := nat.

Inductive val : Type :=
| Undefined
| Null
| Bool (b : bool)
| Num (n : Z)
| Str (s : string)
| Ref (l : loc).

Definition props : Type := list (string * val).

Inductive obj : Type :=
| Obj (ps : props)                              (* a plain object *)
| Arr (elems : list val)                        (* an array *)
| Fun (name : string)                           (* a function of the caller *)
| Merged (resolvers factories : list val).      (* the function of lines 74-77
                                                   and the arrays it closes over *)

(** The store: the object at address [l] is the [l]-th element.  Objects
    are never freed and a new object takes the next address. *)
Definition heap : Type := list obj.

Fixpoint update (l : loc) (o : obj) (h : heap) : heap :=
  match h, l with
  | [], _ => []
  | _ :: rest, O => o :: rest
  | x :: rest, S l' => x :: update l' o rest
  end.

(** Computations on the store that may stop short: out of fuel, or on a
    value of a type the code does not expect. *)
Definition M (A : Type) : Type := heap -> option (A * heap).

Definition ret {A : Type} (a : A) : M A := fun h => Some (a, h).

Definition bind {A B : Type} (m : M A) (k : A -> M B) : M B :=
  fun h => match m h with
           | Some (a, h') => k a h'
           | None => None
           end.

Definition stop {A : Type} : M A := fun _ => None.

Notation "x <- m ;; k" := (bind m (fun x => k))
  (at level 61, m at next level, right associativity).

(** [{...}], [[...]] or a function expression: a new object. *)
Definition alloc (o : obj) : M val :=
  fun h => Some (Ref (List.length h), h ++ [o]).

Definition deref (h : heap) (v : val) : option obj :=
  match v with
  | Ref l => nth_error h l
  | _ => None
  end.

Definition isArray (h : heap) (v : val) : bool :=
  match deref h v with Some (Arr _) => true | _ => false end.

Definition isPlain (h : heap) (v : val) : bool :=
  match deref h v with Some (Obj _) => true | _ => false end.

(** [typeof v === 'function'] and [typeof v === 'object'] *)
Definition isFunctionType (h : heap) (v : val) : bool :=
  match deref h v with Some (Fun _) | Some (Merged _ _) => true | _ => false end.

Definition isObjectType (h : heap) (v : val) : bool :=
  match v with
  | Null => true
  | _ => match deref h v with Some (Obj _) | Some (Arr _) => true | _ => false end
  end.

Definition truthy (v : val) : bool :=
  match v with
  | Undefined | Null => false
  | Bool b => b
  | Num n => negb (n =? 0)%Z
  | Str s => negb (s =? "")
  | Ref _ => true
  end.

(** [o[k]]; [undefined] when [o] has no such own property. *)
Definition getAt (o : val) (k : string) : M val :=
  fun h =>
    match deref h o with
    | Some (Obj ps) =>
        Some (match getProp k ps with Some v => v | None => Undefined end, h)
    | _ => Some (Undefined, h)
    end.

(** [delete o[k]]: the object [o] refers to is changed in place. *)
Definition deleteAt (o : val) (k : string) : M unit :=
  fun h =>
    match o with
    | Ref l =>
        match nth_error h l with
        | Some (Obj ps) => Some (tt, update l (Obj (deleteProp k ps)) h)
        | _ => Some (tt, h)
        end
    | _ => Some (tt, h)
    end.

(** Modelled from the spec: [mergeDeep] of [@graphql-tools/utils], which is
    not among the sources.  As in the tree model, with the sharing the
    specification describes: deep-merge "must not write into source
    mappings - it builds new mapping nodes for any key merged from two
    mapping sources, but may share unmerged leaf references".  The result of
    merging two mappings is a new object; under a key that both hold as
    mappings it holds their merge, a new object in turn; under any other
    key of [source] it holds the very value [source] holds. *)
Fixpoint assignProps (recur : val -> val -> M val) (tf out sf : props)
  : M props :=
  match sf with
  | [] => ret out
  | (k, sv) :: rest =>
      v <- (fun h =>
              match getProp k tf with
              | Some tv =>
                  if isPlain h tv && isPlain h sv then recur tv sv h
                  else Some (sv, h)
              | None => Some (sv, h)
              end) ;;
      assignProps recur tf (setProp k v out) rest
  end.

Fixpoint mergeDeep (fuel : nat) (target source : val) : M val :=
  match fuel with
  | O => stop
  | S fuel' =>
      fun h =>
        match deref h target, deref h source with
        | Some (Obj tf), Some (Obj sf) =>
            (out <- assignProps (mergeDeep fuel') tf tf sf ;;
             alloc (Obj out)) h
        | _, _ => Some (target, h)
        end
  end.

(** [arr.reduce(f, acc)] *)
Fixpoint reduce (f : val -> val -> M val) (arr : list val) (acc : val) : M val :=
  match arr with
  | [] => ret acc
  | x :: rest => acc' <- f acc x ;; reduce f rest acc'
  end.

Record Collected : Type :=
  { resolversFactories : list val;
    resolvers : list val }.

Definition noneCollected : Collected :=
  {| resolversFactories := []; resolvers := [] |}.

(** Lines 66-70 *)
Definition classify (c : Collected) (resolversDefinition : val) : M Collected :=
  fun h =>
    if isFunctionType h resolversDefinition then
      Some ({| resolversFactories := resolversFactories c ++ [resolversDefinition];
               resolvers := resolvers c |}, h)
    else if isObjectType h resolversDefinition then
      Some ({| resolversFactories := resolversFactories c;
               resolvers := resolvers c ++ [resolversDefinition] |}, h)
    else Some (c, h).

(** Lines 62-71; [recur group] is the nested call of line 64. *)
Fixpoint collect (recur : val -> M val) (defs : list val) (c : Collected)
  : M Collected :=
  match defs with
  | [] => ret c
  | resolversDefinition :: rest =>
      d <- (fun h => if isArray h resolversDefinition
                     then recur resolversDefinition h
                     else Some (resolversDefinition, h)) ;;
      c' <- classify c d ;;
      collect recur rest c'
  end.

(** Lines 83-88, one exclusion *)
Definition applyExclusion (result : val) (exclusion : string) : M unit :=
  let parts := split dot exclusion in
  let typeName := nth 0 parts "" in
  match nth_error parts 1 with
  | None => deleteAt result typeName
  | Some fieldName =>
      if (fieldName =? "") || (fieldName =? "*") then deleteAt result typeName
      else
        held <- getAt result typeName ;;
        if truthy held then deleteAt held fieldName else ret tt
  end.

Fixpoint applyEach (result : val) (excl : list string) : M unit :=
  match excl with
  | [] => ret tt
  | exclusion :: rest =>
      _ <- applyExclusion result exclusion ;; applyEach result rest
  end.

(** Lines 81-90 *)
Definition applyExclusions (options : option MergeResolversOptions)
           (result : val) : M unit :=
  match options with
  | Some {| exclusions := Some excl |} => applyEach result excl
  | _ => ret tt
  end.

(** [mergeResolvers(resolversDefinitions, options)].  The first argument is
    [undefined], [null] or an array, as its type says; on anything else the
    computation stops. *)
Fixpoint mergeResolvers (fuel : nat) (resolversDefinitions : val)
         (options : option MergeResolversOptions) : M val :=
  match fuel with
  | O => stop
  | S fuel' =>
      fun h =>
        match resolversDefinitions, deref h resolversDefinitions with
        | Undefined, _ | Null, _ => alloc (Obj []) h
        | _, Some (Arr []) => alloc (Obj []) h
        | _, Some (Arr [singleDefinition]) =>
            if isArray h singleDefinition
            then mergeResolvers fuel' singleDefinition None h
            else Some (singleDefinition, h)
        | _, Some (Arr defs) =>
            (c <- collect (fun group => mergeResolvers fuel' group None)
                          defs noneCollected ;;
             result <- match resolversFactories c with
                       | [] => (empty <- alloc (Obj []) ;;
                                reduce (mergeDeep fuel') (resolvers c) empty)
                       | _ :: _ =>
                           alloc (Merged (resolvers c) (resolversFactories c))
                       end ;;
             _ <- applyExclusions options result ;;
             ret result) h
        | _, _ => None
        end
  end.

(** *** Notions used to state the properties *)

(** No object of [h] is changed in [h']. *)
Definition preserved (h h' : heap) : Prop :=
  forall l o, nth_error h l = Some o -> nth_error h' l = Some o.

(** A value is new with respect to [h] when it refers to an address beyond
    those of [h]. *)
Definition newIn (h : heap) (v : val) : Prop :=
  exists l, v = Ref l /\ List.length h <= l.

(** No exclusion names a field: each deletes a whole type. *)
Definition noFieldExclusion (options : option MergeResolversOptions) : bool :=
  match options with
  | Some {| exclusions := Some excl |} => forallb wholeType excl
  | _ => true
  end.

(** The call [mergeResolvers([{A: {x: 1, y: 2}}, {B: {z: 3}}],
    {exclusions: ['A.y']})]: the objects before the call and its arguments. *)
Definition sharedStore : heap :=
  [ Obj [("x", Num 1); ("y", Num 2)];
    Obj [("A", Ref 0)];
    Obj [("z", Num 3)];
    Obj [("B", Ref 2)];
    Arr [Ref 1; Ref 3] ].

Definition sharedDefinitions : val := Ref 4.

Definition sharedOptions : option MergeResolversOptions :=
  Some {| exclusions := Some ["A.y"] |}.

End Store.

(* ================================================================== *)
(** * Reading a tree out of the store *)

Section Reading.

Context {Args World : Type}.

Fixpoint readAll {A B : Type} (f : A -> option B) (l : list A)
  : option (list B) :=
  match l with
  | [] => Some []
  | x :: rest =>
      match f x, readAll f rest with
      | Some y, Some ys => Some (y :: ys)
      | _, _ => None
      end
  end.

Fixpoint readProps {A B : Type} (f : A -> option B) (ps : list (string * A))
  : option (list (string * B)) :=
  match ps with
  | [] => Some []
  | (k, x) :: rest =>
      match f x, readProps f rest with
      | Some y, Some ys => Some ((k, y) :: ys)
      | _, _ => None
      end
  end.

(** [read n h v] is the tree that [v] denotes in the store [h], followed to
    depth [n] at most; there is none when [v] leads to a function or deeper
    than [n]. *)
Fixpoint read (n : nat) (h : Store.heap) (v : Store.val)
  : option (@Value Args World) :=
  match v with
  | Store.Undefined => Some VUndefined
  | Store.Null => Some VNull
  | Store.Bool b => Some (VBool b)
  | Store.Num z => Some (VNum z)
  | Store.Str s => Some (VStr s)
  | Store.Ref l =>
      match n with
      | O => None
      | S n' =>
          match nth_error h l with
          | Some (Store.Obj ps) =>
              match readProps (read n' h) ps with
              | Some fs => Some (VMap fs)
              | None => None
              end
          | Some (Store.Arr es) =>
              match readAll (read n' h) es with
              | Some l => Some (VArr l)
              | None => None
              end
          | _ => None
          end
      end
  end.

(** [r] refers in [h] to a plain object built after [h0]: it was allocated
    on top of a store [hp] that keeps the objects of [h0], nothing of [hp]
    has changed since, and its properties read in [hp] as [R]'s. *)
Definition builtAt (h0 h : Store.heap) (r : Store.val)
           (R : @Value Args World) : Prop :=
  exists hp l ps Ps n,
    r = Store.Ref l /\
    Store.preserved h0 hp /\
    List.length hp <= l /\
    Store.preserved hp h /\
    nth_error h l = Some (Store.Obj ps) /\
    readProps (read n hp) ps = Some Ps /\
    R = VMap Ps.

(** The first argument of [mergeResolvers] as the tree model takes it. *)
Definition definitionsOf (D : @Value Args World) : option (list Value) :=
  match D with
  | VArr l => Some l
  | _ => None
  end.

End Reading.

(* ================================================================== *)
(** * Notions for further properties of mergeResolvers *)

Section Coverage.

Context {Args World : Type}.

(** A function occurs in [d], at any depth of arrays. *)
Fixpoint hasFactory (d : @Value Args World) : bool :=
  match d with
  | VFun _ => true
  | VArr group => existsb hasFactory group
  | _ => false
  end.

(** The functions that occur in [d], at any depth of arrays, from left to
    right. *)
Fixpoint factoryLeaves (d : @Value Args World) : list Value :=
  match d with
  | VFun _ => [d]
  | VArr group => flat_map factoryLeaves group
  | _ => []
  end.

(** [d] inside [n] arrays of one element: [[...[d]...]]. *)
Fixpoint wrap (n : nat) (d : @Value Args World) : Value :=
  match n with
  | O => d
  | S n' => VArr [wrap n' d]
  end.

(** The names of the own properties of a plain object, in order. *)
Definition typeNames (v : @Value Args World) : list string :=
  match v with
  | VMap fs => map fst fs
  | _ => []
  end.

(** What an exclusion deletes: a whole type, or one field of a type. *)
Inductive Action : Type :=
| DelType (T : string)
| DelField (T f : string).

Definition actionOf (exclusion : string) : Action :=
  match fieldNameOf exclusion with
  | None => DelType (typeNameOf exclusion)
  | Some f =>
      if (f =? "") || (f =? "*") then DelType (typeNameOf exclusion)
      else DelField (typeNameOf exclusion) f
  end.

Definition act (a : Action) (R : @Fields Args World) : Fields :=
  match a with
  | DelType T => deleteProp T R
  | DelField T f =>
      match getProp T R with
      | Some (VMap fs) => setProp T (VMap (deleteProp f fs)) R
      | _ => R
      end
  end.

(** The actions of a list of exclusions, one after the other. *)
Definition excludeAll (excl : list string) (R : @Fields Args World) : Fields :=
  fold_left (fun R e => act (actionOf e) R) excl R.

(** [s] holds no dot. *)
Fixpoint dotFree (s : string) : bool :=
  match s with
  | EmptyString => true
  | String c rest => negb (Ascii.eqb c dot) && dotFree rest
  end.

(** The exclusion [e] bears on field [f] of type [T]: it names the type [T]
    and either the whole of it or the field [f]. *)
Definition touches (T f : string) (e : string) : bool :=
  (typeNameOf e =? T) &&
  (wholeType e ||
   match fieldNameOf e with Some f' => f' =? f | None => false end).

(** The field names that the exclusions delete from a type they keep. *)
Definition fieldsExcluded (options : option MergeResolversOptions)
  : list string :=
  match options with
  | Some {| exclusions := Some excl |} =>
      flat_map (fun e => match actionOf e with
                         | DelField _ f => [f]
                         | DelType _ => []
                         end) excl
  | _ => []
  end.

(** Nothing that [v] leads to in the store [h] lies deeper than [n]
    references: in particular no object or array among them is reachable
    from itself.  Functions are leaves. *)
Fixpoint finite (n : nat) (h : Store.heap) (v : Store.val) : bool :=
  match v with
  | Store.Ref l =>
      match n with
      | O => false
      | S m =>
          match nth_error h l with
          | Some (Store.Obj ps) => forallb (fun kv => finite m h (snd kv)) ps
          | Some (Store.Arr es) => forallb (finite m h) es
          | Some _ => true
          | None => false
          end
      end
  | _ => true
  end.

(** [v] is a first argument the type of [mergeResolvers] allows:
    [undefined], [null] or an array. *)
Definition isDefinitions (h : Store.heap) (v : Store.val) : bool :=
  match v with
  | Store.Undefined | Store.Null => true
  | Store.Ref _ => Store.isArray h v
  | _ => false
  end.

(** [o'] is [o], or [o] without some properties, all named in [names]. *)
Definition prunedBy (names : list string) (o o' : Store.obj) : Prop :=
  o' = o \/
  exists ps ks,
    o = Store.Obj ps /\
    o' = Store.Obj (fold_left (fun p k => deleteProp k p) ks ps) /\
    Forall (fun k => In k names) ks.

(** Every object of [h] is still in [h'], at worst without some properties
    named in [names]. *)
Definition onlyPruned (names : list string) (h h' : Store.heap) : Prop :=
  forall l o, nth_error h l = Some o ->
              exists o', nth_error h' l = Some o' /\ prunedBy names o o'.

End Coverage.

(* ================================================================== *)
(** * Concrete definitions for the examples *)

Module Examples.

(** A runtime argument is an integer; the world is the log of the names of
    the functions called so far. *)
Definition Log : Type := list string.
Definition V : Type := @Value Z Log.

Definition num (n : Z) : V := VNum n.
Definition obj (fs : list (string * V)) : V := VMap fs.

(** [f1 = n => ({A: {x: n}})] and [f2 = n => ({A: {x: n + 1}, B: {y: 2}})],
    each recording its call. *)
Definition f1 : V :=
  VFun (fun n log => (obj [("A", obj [("x", num n)])], log ++ ["f1"])).

Definition f2 : V :=
  VFun (fun n log =>
          (obj [("A", obj [("x", num (n + 1))]); ("B", obj [("y", num 2)])],
           log ++ ["f2"])).

Definition mapA : V := obj [("A", obj [("x", num 0); ("y", num 2)])].
Definition mapAz : V := obj [("A", obj [("z", num 3)])].
Definition mapB : V := obj [("B", obj [("y", num 2)])].
Definition mapAB : V := obj [("A", obj [("x", num 1)]); ("B", obj [("y", num 2)])].

(** A subscription field given as an object, then again with one member. *)
Definition subscriptionFull : V :=
  obj [("Subscription",
        obj [("tick", obj [("subscribe", num 1); ("resolve", num 2)])])].

Definition subscriptionPart : V :=
  obj [("Subscription", obj [("tick", obj [("subscribe", num 3)])])].

Definition withExclusions (excl : list string) : option MergeResolversOptions :=
  Some {| exclusions := Some excl |}.

(** [Store.sharedStore] after the call of [Store.sharedDefinitions] with the
    exclusions [['A']], and after the call with [['A.y']]. *)
Definition storeAfterType : Store.heap :=
  Store.sharedStore ++
  [Store.Obj []; Store.Obj [("A", Store.Ref 0)];
   Store.Obj [("B", Store.Ref 2)]].

Definition storeAfterField : Store.heap :=
  [Store.Obj [("x", Store.Num 1)];
   Store.Obj [("A", Store.Ref 0)];
   Store.Obj [("z", Store.Num 3)];
   Store.Obj [("B", Store.Ref 2)];
   Store.Arr [Store.Ref 1; Store.Ref 3];
   Store.Obj []; Store.Obj [("A", Store.Ref 0)];
   Store.Obj [("A", Store.Ref 0); ("B", Store.Ref 2)]].

End Examples.

(* ================================================================== *)
(** * Properties of the tree model *)

Section ResolversFacts.

Context {Args World : Type}.
Local Abbreviation Val := (@Value Args World).
Local Abbreviation Flds := (@Fields Args World).
Local Abbreviation Opts := (option MergeResolversOptions).

(** ** mergeDeep *)

Lemma mergeDeep_not_map_source (t s : Val) :
  isMap s = false -> mergeDeep t s = t.
Proof. destruct t, s; simpl; intros; congruence. Qed.

Lemma mergeDeep_isMap (t s : Val) :
  isMap t = true -> isMap (mergeDeep t s) = true.
Proof. destruct t, s; simpl; intros; congruence. Qed.

Lemma mergeAll_from_isMap (l : list Val) (acc : Val) :
  isMap acc = true -> isMap (fold_left mergeDeep l acc) = true.
Proof.
  revert acc; induction l as [|x l IH]; intros acc H; simpl; auto.
  apply IH, mergeDeep_isMap, H.
Qed.

Lemma mergeAll_isMap (l : list Val) : isMap (mergeAll l) = true.
Proof. apply mergeAll_from_isMap; reflexivity. Qed.

Lemma fold_mergeDeep_filter (l : list Val) (acc : Val) :
  fold_left mergeDeep (filter isMap l) acc = fold_left mergeDeep l acc.
Proof.
  revert acc; induction l as [|x l IH]; intros acc; simpl; auto.
  destruct (isMap x) eqn:E; simpl.
  - apply IH.
  - rewrite (mergeDeep_not_map_source acc x E). apply IH.
Qed.

(** ** The collecting loop *)

Lemma classify_fold (flat : list Val) (c : Collected) :
  fold_left classify flat c =
  {| resolversFactories := resolversFactories c ++ filter isFunction flat;
     resolvers := resolvers c ++ filter isObjectType flat |}.
Proof.
  revert c; induction flat as [|d flat IH]; intros c; simpl.
  - rewrite !app_nil_r. destruct c; reflexivity.
  - rewrite IH. destruct d; simpl; rewrite <- ?app_assoc; reflexivity.
Qed.

Lemma applyExclusion_fun (e : string) (f : Args -> World -> Val * World) :
  applyExclusion (VFun f) e = VFun f.
Proof.
  unfold applyExclusion.
  destruct (nth_error (split dot e) 1) as [fld|]; [|reflexivity].
  destruct ((fld =? "") || (fld =? "*")); reflexivity.
Qed.

Lemma applyExclusion_map (e : string) (fs : Flds) :
  exists fs', applyExclusion (VMap fs) e = VMap fs'.
Proof.
  unfold applyExclusion.
  destruct (nth_error (split dot e) 1) as [fld|]; [|simpl; eauto].
  destruct ((fld =? "") || (fld =? "*")); [simpl; eauto|].
  destruct (getKey _ (VMap fs)) as [held|]; [|eauto].
  destruct (truthy held); simpl; eauto.
Qed.

Lemma applyExclusions_fun (options : Opts) (f : Args -> World -> Val * World) :
  applyExclusions options (VFun f) = VFun f.
Proof.
  destruct options as [[[excl|]]|]; simpl; auto.
  induction excl as [|e excl IH]; simpl; auto.
  rewrite applyExclusion_fun. exact IH.
Qed.

(** ** Flattening never leaves an array *)

Lemma mergeCollected_not_array (c : Collected) :
  isArray (mergeCollected (Args:=Args) (World:=World) c) = false.
Proof.
  unfold mergeCollected. destruct (resolversFactories c); simpl; auto.
  pose proof (mergeAll_isMap (resolvers c)) as H.
  destruct (mergeAll (resolvers c)); simpl in *; congruence.
Qed.

Lemma dispatch_not_array (flat : list Val) (options : Opts) :
  Forall (fun d => isArray d = false) flat ->
  isArray (dispatch flat options) = false.
Proof.
  intros H. destruct flat as [|a [|b r]]; simpl; auto.
  - inversion H; auto.
  - unfold mergeFlat.
    set (c := fold_left classify _ _).
    pose proof (mergeCollected_not_array c) as Hc.
    unfold mergeCollected in *.
    destruct (resolversFactories c).
    + pose proof (mergeAll_isMap (resolvers c)) as Hm.
      destruct (mergeAll (resolvers c)) eqn:E; simpl in Hm; try congruence.
      destruct options as [[[excl|]]|]; simpl; auto.
      clear. revert fields.
      induction excl as [|e excl IH]; intros fields; simpl; auto.
      destruct (applyExclusion_map e fields) as [fs' ->].
      apply IH.
    + unfold mergedFactory. rewrite applyExclusions_fun. reflexivity.
Qed.

Lemma flatten_not_array (d : Val) : isArray (flatten d) = false.
Proof.
  induction d using Value_nested_ind; simpl; auto.
  apply dispatch_not_array. rewrite Forall_map. exact H.
Qed.

(** ** Own properties *)

Lemma getProp_setProp (k k' : string) (v : Val) (fs : Flds) :
  getProp k (setProp k' v fs) = if k =? k' then Some v else getProp k fs.
Proof.
  induction fs as [|[k0 v0] fs IH]; simpl.
  - destruct (k =? k'); reflexivity.
  - destruct (k' =? k0) eqn:E0; simpl.
    + apply String.eqb_eq in E0; subst k0.
      destruct (k =? k'); reflexivity.
    + destruct (k =? k0) eqn:E1.
      * apply String.eqb_eq in E1; subst k0.
        rewrite String.eqb_sym in E0. rewrite E0. reflexivity.
      * exact IH.
Qed.

Lemma getProp_deleteProp (k k' : string) (fs : Flds) :
  getProp k (deleteProp k' fs) = if k =? k' then None else getProp k fs.
Proof.
  induction fs as [|[k0 v0] fs IH]; simpl.
  - destruct (k =? k'); reflexivity.
  - destruct (k' =? k0) eqn:E0; simpl.
    + apply String.eqb_eq in E0; subst k0. rewrite IH.
      destruct (k =? k'); reflexivity.
    + destruct (k =? k0) eqn:E1.
      * apply String.eqb_eq in E1; subst k0.
        rewrite String.eqb_sym in E0. rewrite E0. reflexivity.
      * exact IH.
Qed.

Lemma setProp_same (k : string) (v : Val) (fs : Flds) :
  getProp k fs = Some v -> setProp k v fs = fs.
Proof.
  induction fs as [|[k0 v0] fs IH]; simpl; [discriminate|].
  destruct (k =? k0) eqn:E.
  - apply String.eqb_eq in E; subst. intros [= ->]. reflexivity.
  - intros H. rewrite IH by exact H. reflexivity.
Qed.

Lemma setProp_fresh (k : string) (v : Val) (fs : Flds) :
  existsb (String.eqb k) (map fst fs) = false ->
  setProp k v fs = fs ++ [(k, v)].
Proof.
  induction fs as [|[k0 v0] fs IH]; simpl; [reflexivity|].
  destruct (k =? k0); simpl; [discriminate|].
  intros H. rewrite IH by exact H. reflexivity.
Qed.

Lemma getProp_absent (k : string) (fs : Flds) :
  existsb (String.eqb k) (map fst fs) = false -> getProp k fs = None.
Proof.
  induction fs as [|[k0 v0] fs IH]; simpl; [reflexivity|].
  destruct (k =? k0); simpl; [discriminate|exact IH].
Qed.

Lemma getProp_member (k : string) (v : Val) (fs : Flds) :
  distinct (map fst fs) = true -> In (k, v) fs -> getProp k fs = Some v.
Proof.
  induction fs as [|[k0 v0] fs IH]; simpl; [tauto|].
  intros Hd [H|H].
  - inversion H; subst. rewrite String.eqb_refl. reflexivity.
  - apply andb_true_iff in Hd as [Hn Hd].
    destruct (k =? k0) eqn:E.
    + apply String.eqb_eq in E; subst k0.
      apply negb_true_iff in Hn. apply getProp_absent in Hn.
      rewrite (IH Hd H) in Hn. discriminate.
    + apply IH; assumption.
Qed.

Lemma wf_map (fs : Flds) :
  wf (VMap fs) = true ->
  distinct (map fst fs) = true /\ Forall (fun kv => wf (snd kv) = true) fs.
Proof.
  simpl. intros H. apply andb_true_iff in H as [Hd Hw]. split; [exact Hd|].
  clear Hd. induction fs as [|[k v] fs IH]; constructor.
  - apply andb_true_iff in Hw as [Hv _]. exact Hv.
  - apply IH. apply andb_true_iff in Hw as [_ Hr]. exact Hr.
Qed.

(** ** The assignment loop of mergeDeep *)

Lemma assign_loop (tf sf : Flds) :
  forall out,
    (fix assign (out : Flds) (sf : Flds) {struct sf} : Flds :=
       match sf with
       | [] => out
       | (k, sv) :: rest =>
           let v :=
             match getProp k tf, sv with
             | Some (VMap tfk), VMap _ => mergeDeep (VMap tfk) sv
             | _, _ => sv
             end in
           assign (setProp k v out) rest
       end) out sf
    = assignProps tf out sf.
Proof.
  induction sf as [|[k sv] sf IH]; intros out; [reflexivity|].
  cbn [assignProps]. rewrite <- IH. reflexivity.
Qed.

Lemma mergeDeep_maps (tf sf : Flds) :
  mergeDeep (VMap tf) (VMap sf) = VMap (assignProps tf tf sf).
Proof.
  cbn [mergeDeep]. f_equal. apply assign_loop.
Qed.

Lemma getProp_assignProps (k : string) (tf sf : Flds) :
  distinct (map fst sf) = true ->
  forall out,
    getProp k (assignProps tf out sf) =
    match getProp k sf with
    | Some sv => Some (laterOver (getProp k tf) sv)
    | None => getProp k out
    end.
Proof.
  induction sf as [|[k0 sv] sf IH]; intros Hd out; [reflexivity|].
  simpl in Hd. apply andb_true_iff in Hd as [Hn Hd].
  apply negb_true_iff in Hn.
  cbn [assignProps getProp]. rewrite (IH Hd).
  destruct (k =? k0) eqn:E.
  - apply String.eqb_eq in E; subst k0.
    rewrite (getProp_absent _ _ Hn), getProp_setProp, String.eqb_refl.
    reflexivity.
  - destruct (getProp k sf); [reflexivity|].
    rewrite getProp_setProp, E. reflexivity.
Qed.

Lemma assignProps_into_empty (sf : Flds) :
  forall out,
    distinct (map fst (out ++ sf)) = true ->
    assignProps [] out sf = out ++ sf.
Proof.
  induction sf as [|[k sv] sf IH]; intros out Hd; cbn [assignProps].
  - rewrite app_nil_r. reflexivity.
  - assert (existsb (String.eqb k) (map fst out) = false) as Hk.
    { clear IH. induction out as [|[k1 v1] out IHo]; [reflexivity|].
      simpl in Hd. apply andb_true_iff in Hd as [Hn Hd].
      apply negb_true_iff in Hn. rewrite map_app, existsb_app in Hn.
      apply orb_false_iff in Hn as [_ Hn]. simpl in Hn.
      apply orb_false_iff in Hn as [Hn _].
      simpl. rewrite String.eqb_sym, Hn. apply IHo, Hd. }
    assert (laterOver (getProp k []) sv = sv) as -> by (destruct sv; reflexivity).
    rewrite setProp_fresh by exact Hk.
    rewrite IH by (rewrite <- app_assoc; exact Hd).
    rewrite <- app_assoc. reflexivity.
Qed.

Lemma mergeDeep_empty (fs : Flds) :
  distinct (map fst fs) = true -> mergeDeep emptyMap (VMap fs) = VMap fs.
Proof.
  intros Hd. unfold emptyMap. rewrite mergeDeep_maps.
  rewrite assignProps_into_empty by exact Hd. reflexivity.
Qed.

Lemma assignProps_fixed (tf sf : Flds) :
  Forall (fun kv => getProp (fst kv) tf = Some (snd kv) /\
                    mergeDeep (snd kv) (snd kv) = snd kv) sf ->
  assignProps tf tf sf = tf.
Proof.
  induction 1 as [|[k sv] sf [Hget Hself] _ IH]; [reflexivity|].
  cbn [assignProps fst snd] in *.
  assert (laterOver (getProp k tf) sv = sv) as ->.
  { rewrite Hget. destruct sv; try reflexivity. exact Hself. }
  rewrite setProp_same by exact Hget. exact IH.
Qed.

Lemma mergeDeep_self (v : Val) : wf v = true -> mergeDeep v v = v.
Proof.
  induction v as [| | | | | |fs IH|l IH] using Value_nested_ind;
    intros Hwf; try reflexivity.
  apply wf_map in Hwf as [Hd Hw].
  rewrite mergeDeep_maps. f_equal. apply assignProps_fixed.
  rewrite Forall_forall in *. intros [k sv] Hin. cbn [fst snd]. split.
  - apply getProp_member; assumption.
  - apply (IH _ Hin), (Hw _ Hin).
Qed.

(** ** Empty, single and grouped definitions *)

(** C9: with an empty or an absent sequence of definitions the result is the
    empty Map, whatever the options. *)
Theorem C9_empty_or_absent (options : Opts) :
  mergeResolvers (Args:=Args) (World:=World) None options = emptyMap /\
  mergeResolvers (Args:=Args) (World:=World) (Some []) options = emptyMap /\
  (forall fuel,
      mergeResolvers_fuel (Args:=Args) (World:=World) (S fuel) None options
        = Some emptyMap /\
      mergeResolvers_fuel (Args:=Args) (World:=World) (S fuel) (Some []) options
        = Some emptyMap).
Proof. repeat split. Qed.

(** C4: a single definition that is not a Group is returned as it is; nothing
    is merged and the exclusions of the options are not applied. *)
Theorem C4_single_definition_unchanged (d : Val) (options : Opts) :
  isArray d = false ->
  mergeResolvers (Some [d]) options = d /\
  (forall fuel, mergeResolvers_fuel (S fuel) (Some [d]) options = Some d).
Proof.
  intros H. split.
  - destruct d; simpl in *; congruence.
  - intros fuel. destruct d; simpl in *; congruence.
Qed.

(** C5: a call on a single Group is the call on the Group's elements, made
    without the options of the outer call. *)
Theorem C5_single_group_unwrapped (group : list Val) (options : Opts) :
  mergeResolvers (Some [VArr group]) options = mergeResolvers (Some group) None /\
  (forall fuel,
      mergeResolvers_fuel (S fuel) (Some [VArr group]) options
        = mergeResolvers_fuel fuel (Some group) None).
Proof. split; reflexivity. Qed.

(** ** Termination *)

Lemma depthAll_cons (d : Val) (defs : list Val) :
  depthAll (d :: defs) = Nat.max (depth d) (depthAll defs).
Proof. reflexivity. Qed.

Lemma depth_group (group : list Val) : depth (VArr group) = S (depthAll group).
Proof. reflexivity. Qed.

Lemma flatten_group (group : list Val) :
  flatten (VArr group) = mergeResolvers (Some group) None.
Proof. reflexivity. Qed.

Lemma loop_with_fuel (recur : list Val -> option Val) (bound : nat) :
  (forall group, depthAll group < bound ->
                 recur group = Some (mergeResolvers (Some group) None)) ->
  forall (defs : list Val) (c : Collected),
    depthAll defs < S bound ->
    fold_left (collectStep recur) defs (Some c)
      = Some (fold_left classify (map flatten defs) c).
Proof.
  intros Hrec defs.
  induction defs as [|d defs IHd]; intros c Hd; [reflexivity|].
  rewrite depthAll_cons in Hd.
  cbn [fold_left map].
  assert (collectStep recur (Some c) d = Some (classify c (flatten d))) as ->.
  { destruct d; try reflexivity.
    unfold collectStep. rewrite Hrec by (rewrite depth_group in Hd; lia).
    reflexivity. }
  apply IHd. lia.
Qed.

Lemma fuel_enough (fuel : nat) :
  forall (defs : list Val) (options : Opts),
    depthAll defs < fuel ->
    mergeResolvers_fuel fuel (Some defs) options
      = Some (mergeResolvers (Some defs) options).
Proof.
  induction fuel as [|fuel' IH]; intros defs options Hd; [lia|].
  destruct defs as [|a [|b rest]].
  - reflexivity.
  - destruct a; try reflexivity.
    change (mergeResolvers_fuel fuel' (Some elems) None
            = Some (mergeResolvers (Some elems) None)).
    apply IH. rewrite depthAll_cons, depth_group in Hd. lia.
  - cbn [mergeResolvers_fuel].
    rewrite (loop_with_fuel (fun g => mergeResolvers_fuel fuel' (Some g) None)
               (fun g Hg => IH g None Hg) (a :: b :: rest) noneCollected Hd).
    reflexivity.
Qed.


(** ** Two or more definitions *)

Lemma dispatch_many (flat : list Val) (options : Opts) :
  2 <= List.length flat -> dispatch flat options = mergeFlat flat options.
Proof.
  destruct flat as [|a [|b r]]; simpl; intros; try lia; reflexivity.
Qed.

Lemma mergeResolvers_many (defs : list Val) (options : Opts) :
  2 <= List.length defs ->
  mergeResolvers (Some defs) options = mergeFlat (map flatten defs) options.
Proof.
  intros H. apply dispatch_many. rewrite length_map. exact H.
Qed.

Lemma filter_isMap_objects (flat : list Val) :
  filter isMap (filter isObjectType flat) = filter isMap flat.
Proof.
  induction flat as [|x l IH]; simpl; auto.
  destruct x; simpl; rewrite ?IH; auto.
Qed.

(** Merging what the loop collected as objects, followed by [more], is
    merging the Maps among them, followed by [more]. *)
Lemma mergeAll_objects (flat more : list Val) :
  mergeAll (filter isObjectType flat ++ more)
  = mergeAll (filter isMap flat ++ more).
Proof.
  unfold mergeAll. rewrite !fold_left_app. f_equal.
  rewrite <- (fold_mergeDeep_filter (filter isObjectType flat)).
  rewrite filter_isMap_objects. reflexivity.
Qed.

Lemma mergeFlat_no_factory (flat : list Val) (options : Opts) :
  filter isFunction flat = [] ->
  mergeFlat flat options = applyExclusions options (mergeAll (filter isMap flat)).
Proof.
  intros H. unfold mergeFlat. rewrite classify_fold. unfold mergeCollected.
  cbn [resolversFactories resolvers noneCollected app]. rewrite H.
  f_equal. rewrite <- (app_nil_r (filter isObjectType flat)).
  rewrite mergeAll_objects, app_nil_r. reflexivity.
Qed.

Lemma mergeFlat_factory (flat : list Val) (options : Opts) :
  filter isFunction flat <> [] ->
  mergeFlat flat options =
  mergedFactory {| resolversFactories := filter isFunction flat;
                   resolvers := filter isObjectType flat |}.
Proof.
  intros H. unfold mergeFlat. rewrite classify_fold. unfold mergeCollected.
  cbn [resolversFactories resolvers noneCollected app].
  destruct (filter isFunction flat) eqn:E; [congruence|].
  unfold mergedFactory. apply applyExclusions_fun.
Qed.

Lemma existsb_filter_nonempty (flat : list Val) :
  existsb isFunction flat = true -> filter isFunction flat <> [].
Proof.
  induction flat as [|x l IH]; simpl; [discriminate|].
  destruct (isFunction x); simpl; [discriminate|exact IH].
Qed.


Lemma sameResult_refl (r : Val) : sameResult r r.
Proof. destruct r; simpl; auto. Qed.

Lemma mergeFlat_same (A B : list Val) (options : Opts) :
  filter isFunction A = filter isFunction B ->
  filter isMap A = filter isMap B ->
  sameResult (mergeFlat A options) (mergeFlat B options).
Proof.
  intros HF HM.
  destruct (filter isFunction A) as [|f fs] eqn:EA.
  - rewrite !mergeFlat_no_factory by congruence. rewrite HM.
    apply sameResult_refl.
  - rewrite !mergeFlat_factory by congruence.
    unfold mergedFactory; cbn [resolversFactories resolvers sameResult].
    intros args w. rewrite <- HF, EA.
    destruct (callEach (f :: fs) args w) as [rs w'].
    rewrite !mergeAll_objects, HM. reflexivity.
Qed.

Lemma mergeFlat_equal (A B : list Val) (options : Opts) :
  filter isFunction A = filter isFunction B ->
  filter isObjectType A = filter isObjectType B ->
  mergeFlat A options = mergeFlat B options.
Proof.
  intros HF HO. unfold mergeFlat. rewrite !classify_fold, HF, HO. reflexivity.
Qed.

(** C7: in a call with two or more definitions, a definition that, Groups
    flattened, is neither a function nor a Map contributes nothing: the
    result is what the merge of the other definitions gives (lines 58-91 on
    the others), which is the call on the others when two or more remain.
    Unless the definition is [null], which the loop collects and the merge
    then passes over, the two results are the same term. *)
Theorem C7_unrecognised_definition_dropped
        (before after : list Val) (d : Val) (options : Opts) :
  isFunction (flatten d) = false ->
  isMap (flatten d) = false ->
  1 <= List.length (before ++ after) ->
  sameResult (mergeResolvers (Some (before ++ d :: after)) options)
             (mergeFlat (map flatten (before ++ after)) options) /\
  (isObjectType (flatten d) = false ->
   mergeResolvers (Some (before ++ d :: after)) options
   = mergeFlat (map flatten (before ++ after)) options) /\
  (2 <= List.length (before ++ after) ->
   sameResult (mergeResolvers (Some (before ++ d :: after)) options)
              (mergeResolvers (Some (before ++ after)) options)).
Proof.
  intros HF HM Hlen.
  assert (2 <= List.length (before ++ d :: after)) as Hlen'
      by (rewrite length_app in *; cbn [List.length]; lia).
  assert (sameResult (mergeResolvers (Some (before ++ d :: after)) options)
                     (mergeFlat (map flatten (before ++ after)) options)) as H.
  { rewrite mergeResolvers_many by exact Hlen'.
    apply mergeFlat_same; rewrite !map_app; cbn [map];
      rewrite !filter_app; cbn [filter]; rewrite ?HF, ?HM; reflexivity. }
  split; [exact H|]. split.
  - intros HO. rewrite mergeResolvers_many by exact Hlen'.
    apply mergeFlat_equal; rewrite !map_app; cbn [map];
      rewrite !filter_app; cbn [filter]; rewrite ?HF, ?HO; reflexivity.
  - intros H2. rewrite (mergeResolvers_many (before ++ after)) by exact H2.
    exact H.
Qed.

(** ** Maps only *)

Lemma flatten_keep (d : Val) : isArray d = false -> flatten d = d.
Proof. destruct d; simpl; congruence. Qed.

Lemma maps_flat (defs : list Val) :
  forallb isMap defs = true ->
  map flatten defs = defs /\ filter isFunction defs = [] /\
  filter isMap defs = defs.
Proof.
  induction defs as [|d defs IH]; simpl; [auto|].
  intros H. apply andb_true_iff in H as [Hd Hr].
  destruct (IH Hr) as (H1 & H2 & H3).
  destruct d; try discriminate. simpl. rewrite H1, H2, H3. auto.
Qed.

Lemma mergeResolvers_maps (defs : list Val) (options : Opts) :
  2 <= List.length defs ->
  forallb isMap defs = true ->
  mergeResolvers (Some defs) options = applyExclusions options (mergeAll defs).
Proof.
  intros Hlen Hmaps. destruct (maps_flat defs Hmaps) as (H1 & H2 & H3).
  rewrite mergeResolvers_many by exact Hlen.
  rewrite H1, mergeFlat_no_factory by exact H2. rewrite H3. reflexivity.
Qed.

(** C8: merging a Map with itself gives the Map back. *)
Theorem C8_merge_with_itself (R : Val) :
  isMap R = true -> wf R = true ->
  mergeResolvers (Some [R; R]) None = R.
Proof.
  intros HR Hwf.
  rewrite mergeResolvers_maps by (simpl; rewrite ?HR; auto).
  destruct R as [| | | | | |fs|]; try discriminate.
  cbn [applyExclusions mergeAll fold_left].
  rewrite mergeDeep_empty by (apply wf_map in Hwf; tauto).
  apply mergeDeep_self, Hwf.
Qed.

(** ** Precedence of later definitions *)

Lemma getKey_mergeDeep (k : string) (tf sf : Flds) :
  distinct (map fst sf) = true ->
  getKey k (mergeDeep (VMap tf) (VMap sf)) =
  match getProp k sf with
  | Some sv => Some (laterOver (getProp k tf) sv)
  | None => getProp k tf
  end.
Proof.
  intros Hd. rewrite mergeDeep_maps. cbn [getKey].
  apply getProp_assignProps, Hd.
Qed.

Lemma fieldAt_merge_defined (acc M : Val) (T f : string) (v : Val) :
  isMap acc = true -> wf M = true ->
  fieldAt T f M = Some v ->
  fieldAt T f (mergeDeep acc M) = Some (laterOver (fieldAt T f acc) v).
Proof.
  intros Hacc Hwf Hf.
  destruct acc as [| | | | | |tf|]; try discriminate.
  destruct M as [| | | | | |sf|]; try discriminate.
  apply wf_map in Hwf as [Hd Hw].
  unfold fieldAt in *. rewrite getKey_mergeDeep by exact Hd.
  cbn [getKey] in *.
  destruct (getProp T sf) as [sT|] eqn:ET; [|discriminate].
  destruct sT as [| | | | | |sT|]; try discriminate.
  assert (wf (VMap sT) = true) as HwT.
  { clear - Hw ET. induction sf as [|[k0 v0] sf IH]; [discriminate|].
    inversion Hw; subst. simpl in ET. destruct (T =? k0).
    - inversion ET; subst. assumption.
    - apply IH; assumption. }
  apply wf_map in HwT as [HdT _].
  destruct (getProp T tf) as [tT|]; [destruct tT|]; cbn [laterOver];
    try (rewrite Hf; destruct v; reflexivity).
  rewrite mergeDeep_maps, getProp_assignProps by exact HdT.
  rewrite Hf. reflexivity.
Qed.

Lemma fieldAt_merge_silent (acc M : Val) (T f : string) :
  isMap acc = true -> wf M = true ->
  silentOn T f M = true ->
  fieldAt T f (mergeDeep acc M) = fieldAt T f acc.
Proof.
  intros Hacc Hwf Hs.
  destruct acc as [| | | | | |tf|]; try discriminate.
  destruct M as [| | | | | |sf|]; try reflexivity.
  apply wf_map in Hwf as [Hd Hw].
  unfold fieldAt, silentOn in *. rewrite getKey_mergeDeep by exact Hd.
  cbn [getKey] in *.
  destruct (getProp T sf) as [sT|] eqn:ET; [|reflexivity].
  destruct sT as [| | | | | |sT|]; try discriminate.
  destruct (getProp f sT) eqn:Ef; [discriminate|].
  assert (wf (VMap sT) = true) as HwT.
  { clear - Hw ET. induction sf as [|[k0 v0] sf IH]; [discriminate|].
    inversion Hw; subst. simpl in ET. destruct (T =? k0).
    - inversion ET; subst. assumption.
    - apply IH; assumption. }
  apply wf_map in HwT as [HdT _].
  destruct (getProp T tf) as [tT|]; [destruct tT|]; cbn [laterOver];
    try exact Ef.
  rewrite mergeDeep_maps, getProp_assignProps by exact HdT.
  rewrite Ef. reflexivity.
Qed.

Lemma fieldAt_fold_silent (T f : string) (after : list Val) :
  forall acc,
    isMap acc = true ->
    forallb wf after = true ->
    forallb (silentOn T f) after = true ->
    fieldAt T f (fold_left mergeDeep after acc) = fieldAt T f acc.
Proof.
  induction after as [|M after IH]; intros acc Hacc Hwf Hs; [reflexivity|].
  simpl in Hwf, Hs.
  apply andb_true_iff in Hwf as [HwM Hwf].
  apply andb_true_iff in Hs as [HsM Hs].
  cbn [fold_left]. rewrite IH; auto using mergeDeep_isMap.
  apply fieldAt_merge_silent; assumption.
Qed.

(** C2, amended: two or more Maps and no options give the merge of the Maps,
    left to right, from the empty Map.  If a definition gives field [f] of
    type [T] the value [v] and no later definition mentions that field, the
    result holds at [T.f] what [v] makes of the value merged before: [v]
    itself, unless both are mappings, which are merged in turn. *)
Theorem C2_later_definition_wins (defs : list Val) :
  2 <= List.length defs ->
  forallb isMap defs = true ->
  forallb wf defs = true ->
  mergeResolvers (Some defs) None = mergeAll defs /\
  (forall before M after T f v,
      defs = before ++ M :: after ->
      fieldAt T f M = Some v ->
      forallb (silentOn T f) after = true ->
      fieldAt T f (mergeResolvers (Some defs) None)
        = Some (laterOver (fieldAt T f (mergeAll before)) v) /\
      (isMap v = false ->
       fieldAt T f (mergeResolvers (Some defs) None) = Some v)) /\
  mergeResolvers (Args:=Args) (World:=World)
    (Some [VMap [("Type", VMap [("f", VNum 1)])];
           VMap [("Type", VMap [("f", VNum 2)])]]) None
    = VMap [("Type", VMap [("f", VNum 2)])].
Proof.
  intros Hlen Hmaps Hwf.
  pose proof (@mergeResolvers_maps defs None Hlen Hmaps) as Hres.
  cbn [applyExclusions] in Hres.
  split; [exact Hres|]. split; [|reflexivity].
  intros before M after T f v -> Hf Hs.
  rewrite forallb_app in Hwf. apply andb_true_iff in Hwf as [_ Hwf].
  simpl in Hwf. apply andb_true_iff in Hwf as [HwM Hwa].
  assert (fieldAt T f (mergeResolvers (Some (before ++ M :: after)) None)
          = Some (laterOver (fieldAt T f (mergeAll before)) v)) as H.
  { rewrite Hres. unfold mergeAll. rewrite fold_left_app. cbn [fold_left].
    rewrite fieldAt_fold_silent;
      auto using mergeDeep_isMap, mergeAll_from_isMap.
    apply fieldAt_merge_defined; auto.
    apply mergeAll_from_isMap. reflexivity. }
  split; [exact H|].
  intros Hv. rewrite H. f_equal.
  destruct (fieldAt T f (mergeAll before)) as [u|]; [|destruct v; reflexivity].
  destruct u, v; try reflexivity; discriminate.
Qed.

(** ** Exclusions *)

Lemma split_nonempty (sep : ascii) (s : string) : split sep s <> [].
Proof.
  destruct s as [|c s]; simpl; [discriminate|].
  destruct (Ascii.eqb c sep); [discriminate|].
  destruct (split sep s); discriminate.
Qed.

Lemma split_head (sep : ascii) (s : string) :
  nth 0 (split sep s) "" = before_sep sep s.
Proof.
  induction s as [|c s IH]; simpl; [reflexivity|].
  destruct (Ascii.eqb c sep); [reflexivity|].
  pose proof (split_nonempty sep s).
  destruct (split sep s); [congruence|]. simpl in *. congruence.
Qed.

Lemma split_tail (sep : ascii) (s : string) :
  tl (split sep s) =
  match after_sep sep s with
  | None => []
  | Some rest => split sep rest
  end.
Proof.
  induction s as [|c s IH]; simpl; [reflexivity|].
  destruct (Ascii.eqb c sep); [reflexivity|].
  pose proof (split_nonempty sep s).
  destruct (split sep s); [congruence|]. exact IH.
Qed.

Lemma split_second (sep : ascii) (s : string) :
  nth_error (split sep s) 1 =
  match after_sep sep s with
  | None => None
  | Some rest => Some (before_sep sep rest)
  end.
Proof.
  pose proof (split_tail sep s) as Ht.
  pose proof (split_nonempty sep s) as Hn.
  destruct (split sep s) as [|a l]; [congruence|]. simpl in *. subst l.
  destruct (after_sep sep s) as [rest|]; [|reflexivity].
  rewrite <- split_head.
  pose proof (split_nonempty sep rest).
  destruct (split sep rest); [congruence|reflexivity].
Qed.

Lemma applyExclusion_whole (R : Val) (e : string) :
  wholeType e = true ->
  applyExclusion R e = deleteKey (typeNameOf e) R.
Proof.
  unfold wholeType, applyExclusion, fieldNameOf, typeNameOf.
  rewrite split_head, split_second.
  destruct (after_sep dot e); [|reflexivity].
  intros ->. reflexivity.
Qed.

Lemma applyExclusion_field (R : Flds) (e fld : string) :
  wholeType e = false ->
  fieldNameOf e = Some fld ->
  applyExclusion (VMap R) e =
  match getProp (typeNameOf e) R with
  | Some (VMap fs) =>
      VMap (setProp (typeNameOf e) (VMap (deleteProp fld fs)) R)
  | _ => VMap R
  end.
Proof.
  unfold wholeType, applyExclusion, fieldNameOf, typeNameOf.
  rewrite split_head, split_second.
  destruct (after_sep dot e) as [rest|]; [|discriminate].
  intros -> [= <-]. cbn [getKey].
  destruct (getProp (before_sep dot e) R) as [held|] eqn:E; [|reflexivity].
  destruct held; cbn [truthy deleteKey replaceKey];
    try match goal with |- (if ?c then _ else _) = _ => destruct c end;
    try rewrite (setProp_same _ _ E); reflexivity.
Qed.


End ResolversFacts.

(* ================================================================== *)
(** * Properties of the store model *)

Section StoreFacts.

Import Store.

Lemma bind_inv {A B : Type} (m : M A) (k : A -> M B) (h h' : heap) (b : B) :
  bind m k h = Some (b, h') ->
  exists a h1, m h = Some (a, h1) /\ k a h1 = Some (b, h').
Proof.
  unfold bind. destruct (m h) as [[a h1]|]; [|discriminate]. eauto.
Qed.

Lemma preserved_refl (h : heap) : preserved h h.
Proof. intros l o H; exact H. Qed.

Lemma preserved_trans (h1 h2 h3 : heap) :
  preserved h1 h2 -> preserved h2 h3 -> preserved h1 h3.
Proof. intros H12 H23 l o H. apply H23, H12, H. Qed.

Lemma preserved_length (h h' : heap) :
  preserved h h' -> List.length h <= List.length h'.
Proof.
  intros H. destruct (le_lt_dec (List.length h) (List.length h')) as [|Hlt];
    [assumption|].
  destruct (nth_error h (List.length h')) as [o|] eqn:E.
  - apply H in E.
    assert (nth_error h' (List.length h') = None) as E'
        by (apply nth_error_None; lia).
    congruence.
  - apply nth_error_None in E. lia.
Qed.

Lemma preserved_app (h : heap) (ext : heap) : preserved h (h ++ ext).
Proof.
  intros l o H. rewrite nth_error_app1; [exact H|].
  apply nth_error_Some. congruence.
Qed.

Lemma nth_error_update_other (l l' : loc) (o : obj) (h : heap) :
  l <> l' -> nth_error (update l o h) l' = nth_error h l'.
Proof.
  revert l l'. induction h as [|x h IH]; intros l l' Hne;
    [destruct l; reflexivity|].
  destruct l, l'; simpl; try congruence; auto.
Qed.

Lemma preserved_update_fresh (h0 h : heap) (l : loc) (o : obj) :
  List.length h0 <= l -> preserved h0 h -> preserved h0 (update l o h).
Proof.
  intros Hl H l' o' E. rewrite nth_error_update_other.
  - apply H, E.
  - assert (l' < List.length h0) by (apply nth_error_Some; congruence). lia.
Qed.

Lemma alloc_frame (o : obj) (h h' : heap) (v : val) :
  alloc o h = Some (v, h') -> v = Ref (List.length h) /\ preserved h h'.
Proof.
  unfold alloc. intros [= <- <-]. split; [reflexivity|apply preserved_app].
Qed.

Lemma newIn_weaken (h h' : heap) (v : val) :
  preserved h h' -> newIn h' v -> newIn h v.
Proof.
  intros H (l & -> & Hl). exists l. split; [reflexivity|].
  apply preserved_length in H. lia.
Qed.

(** ** mergeDeep allocates and never writes *)

Lemma assignProps_frame (recur : val -> val -> M val) :
  (forall t s h v h', recur t s h = Some (v, h') -> preserved h h') ->
  forall tf sf out h out' h',
    assignProps recur tf out sf h = Some (out', h') -> preserved h h'.
Proof.
  intros Hrec tf sf.
  induction sf as [|[k sv] sf IH]; intros out h out' h' H.
  - inversion H; subst. apply preserved_refl.
  - cbn [assignProps] in H. apply bind_inv in H as (v & h1 & Hv & Hrest).
    apply preserved_trans with h1; [|eapply IH; exact Hrest].
    destruct (getProp k tf) as [tv|].
    + destruct (isPlain h tv && isPlain h sv).
      * eapply Hrec; exact Hv.
      * inversion Hv; subst. apply preserved_refl.
    + inversion Hv; subst. apply preserved_refl.
Qed.

Lemma mergeDeep_frame (fuel : nat) :
  forall target source h v h',
    mergeDeep fuel target source h = Some (v, h') ->
    preserved h h' /\ (v = target \/ newIn h v).
Proof.
  induction fuel as [|fuel IH]; intros target source h v h' H;
    [discriminate|].
  cbn [mergeDeep] in H.
  destruct (deref h target) as [[tf| | |]|];
    try (inversion H; subst; split; [apply preserved_refl|left; reflexivity]).
  destruct (deref h source) as [[sf| | |]|];
    try (inversion H; subst; split; [apply preserved_refl|left; reflexivity]).
  apply bind_inv in H as (out & h1 & Hout & Halloc).
  apply alloc_frame in Halloc as [-> Hpres].
  assert (preserved h h1) as H1.
  { eapply assignProps_frame; [|exact Hout].
    intros t s h0 v0 h0' H0. apply (IH _ _ _ _ _ H0). }
  split.
  - eapply preserved_trans; eassumption.
  - right. exists (List.length h1). split; [reflexivity|].
    apply preserved_length, H1.
Qed.

Lemma reduce_frame (fuel : nat) (arr : list val) :
  forall acc h v h',
    reduce (mergeDeep fuel) arr acc h = Some (v, h') ->
    preserved h h' /\ (v = acc \/ newIn h v).
Proof.
  induction arr as [|x arr IH]; intros acc h v h' H.
  - inversion H; subst. split; [apply preserved_refl|left; reflexivity].
  - cbn [reduce] in H. apply bind_inv in H as (acc' & h1 & Hm & Hrest).
    apply mergeDeep_frame in Hm as [H1 Hacc].
    apply IH in Hrest as [H2 Hv].
    split; [eapply preserved_trans; eassumption|].
    destruct Hv as [->|Hv]; [exact Hacc|].
    right. eapply newIn_weaken; eassumption.
Qed.

(** ** The collecting loop and the exclusions *)

Lemma classify_frame (c c' : Collected) (d : val) (h h' : heap) :
  classify c d h = Some (c', h') -> h' = h.
Proof.
  unfold classify.
  destruct (isFunctionType h d); [|destruct (isObjectType h d)];
    intros [= _ <-]; reflexivity.
Qed.

Lemma collect_frame (recur : val -> M val) :
  (forall g h v h', recur g h = Some (v, h') -> preserved h h') ->
  forall defs c h c' h',
    collect recur defs c h = Some (c', h') -> preserved h h'.
Proof.
  intros Hrec defs.
  induction defs as [|d defs IH]; intros c h c' h' H.
  - inversion H; subst. apply preserved_refl.
  - cbn [collect] in H.
    apply bind_inv in H as (d' & h1 & Hd & H).
    apply bind_inv in H as (c1 & h2 & Hc & H).
    apply classify_frame in Hc; subst h2.
    apply preserved_trans with h1; [|eapply IH; exact H].
    destruct (isArray h d).
    + eapply Hrec; exact Hd.
    + inversion Hd; subst. apply preserved_refl.
Qed.

Lemma deleteAt_new (h0 h h' : heap) (v : val) (k : string) :
  newIn h0 v -> preserved h0 h ->
  deleteAt v k h = Some (tt, h') -> preserved h0 h'.
Proof.
  intros (l & -> & Hl) Hp. unfold deleteAt.
  destruct (nth_error h l) as [[ps| | |]|]; intros [= <-]; try exact Hp.
  apply preserved_update_fresh; assumption.
Qed.

Lemma applyExclusion_whole_store (result : val) (e : string) :
  wholeType e = true ->
  applyExclusion result e = deleteAt result (typeNameOf e).
Proof.
  unfold wholeType, applyExclusion, fieldNameOf, typeNameOf.
  rewrite split_head, split_second.
  destruct (after_sep dot e); [|reflexivity].
  intros ->. reflexivity.
Qed.

Lemma applyEach_new (h0 : heap) (v : val) (excl : list string) :
  newIn h0 v -> forallb wholeType excl = true ->
  forall h h',
    preserved h0 h -> applyEach v excl h = Some (tt, h') -> preserved h0 h'.
Proof.
  intros Hv. induction excl as [|e excl IH]; intros Hw h h' Hp H.
  - inversion H; subst. exact Hp.
  - simpl in Hw. apply andb_true_iff in Hw as [He Hw].
    cbn [applyEach] in H. apply bind_inv in H as ([] & h1 & H1 & H).
    rewrite applyExclusion_whole_store in H1 by exact He.
    eapply IH; [exact Hw| |exact H].
    eapply deleteAt_new; eassumption.
Qed.

Lemma applyExclusions_new (h0 h h' : heap) (v : val)
      (options : option MergeResolversOptions) :
  newIn h0 v -> noFieldExclusion options = true -> preserved h0 h ->
  applyExclusions options v h = Some (tt, h') -> preserved h0 h'.
Proof.
  intros Hv Hno Hp H.
  destruct options as [[[excl|]]|]; cbn [applyExclusions] in H;
    try (inversion H; subst; exact Hp).
  eapply applyEach_new; eassumption.
Qed.

(** Without an exclusion that names a field, [mergeResolvers] changes no
    object that existed before the call: it only allocates, and deletes
    entries of the result it has just built. *)
Theorem inputs_preserved_without_field_exclusion (fuel : nat) :
  forall resolversDefinitions options h v h',
    noFieldExclusion options = true ->
    mergeResolvers fuel resolversDefinitions options h = Some (v, h') ->
    preserved h h'.
Proof.
  induction fuel as [|fuel IH]; intros defs options h v h' Hno H;
    [discriminate|].
  cbn [mergeResolvers] in H.
  assert (forall o, alloc o h = Some (v, h') -> preserved h h') as Halloc
      by (intros o Ho; apply alloc_frame in Ho; tauto).
  destruct defs as [| | | | |l]; eauto; try discriminate.
  cbn [deref] in H.
  destruct (nth_error h l) as [[ps|elems|name|rs fs]|]; try discriminate.
  destruct elems as [|a [|b rest]]; eauto.
  - destruct (isArray h a).
    + eapply IH; [|exact H]. reflexivity.
    + inversion H; subst. apply preserved_refl.
  - apply bind_inv in H as (c & h1 & Hc & H).
    apply bind_inv in H as (result & h2 & Hr & H).
    apply bind_inv in H as ([] & h3 & He & H).
    inversion H; subst; clear H.
    assert (preserved h h1) as H1.
    { eapply collect_frame; [|exact Hc].
      intros g h0 v0 h0' H0. eapply IH; [|exact H0]. reflexivity. }
    assert (preserved h1 h2 /\ newIn h1 v) as [H2 Hnew].
    { destruct (resolversFactories c).
      - apply bind_inv in Hr as (empty & h1' & Hempty & Hred).
        apply alloc_frame in Hempty as [-> Hp1].
        apply reduce_frame in Hred as [Hp2 Hv].
        split; [eapply preserved_trans; eassumption|].
        destruct Hv as [->|Hv].
        + exists (List.length h1). split; [reflexivity|lia].
        + eapply newIn_weaken; eassumption.
      - apply alloc_frame in Hr as [-> Hp]. split; [exact Hp|].
        exists (List.length h1). split; [reflexivity|lia]. }
    eapply applyExclusions_new; [| exact Hno | | exact He].
    + eapply newIn_weaken; eassumption.
    + eapply preserved_trans; eassumption.
Qed.

(** C6 at the call [mergeResolvers([{A: {x: 1, y: 2}}, {B: {z: 3}}],
    {exclusions: ['A.y']})]: the call returns, and the object held by the
    first definition under [A], which was [{x: 1, y: 2}] before the call, is
    [{x: 1}] after it. *)
Theorem C6_field_exclusion_changes_input :
  exists result h',
    mergeResolvers 3 sharedDefinitions sharedOptions sharedStore
      = Some (result, h') /\
    deref sharedStore (Ref 1) = Some (Obj [("A", Ref 0)]) /\
    nth_error sharedStore 0 = Some (Obj [("x", Num 1); ("y", Num 2)]) /\
    nth_error h' 0 = Some (Obj [("x", Num 1)]) /\
    ~ preserved sharedStore h'.
Proof.
  eexists; eexists. split; [vm_compute; reflexivity|].
  repeat split. intros H.
  specialize (H 0 _ eq_refl). discriminate H.
Qed.

End StoreFacts.

(* ================================================================== *)
(** * The store model refines the tree model *)

Section Refinement.

Unset Implicit Arguments.

Context {Args World : Type}.
Local Abbreviation Val := (@Value Args World).
Local Abbreviation rd := (@read Args World).

(** ** Reading is stable *)

Lemma readProps_impl {A B : Type} (f g : A -> option B) (ps : list (string * A)) :
  (forall x y, f x = Some y -> g x = Some y) ->
  forall P, readProps f ps = Some P -> readProps g ps = Some P.
Proof.
  intros Hfg. induction ps as [|[k x] ps IH]; intros P H; [exact H|].
  cbn [readProps] in *.
  destruct (f x) as [y|] eqn:Ex; [|discriminate].
  destruct (readProps f ps) as [ys|]; [|discriminate].
  rewrite (Hfg _ _ Ex), (IH _ eq_refl). exact H.
Qed.

Lemma readAll_impl {A B : Type} (f g : A -> option B) (l : list A) :
  (forall x y, f x = Some y -> g x = Some y) ->
  forall L, readAll f l = Some L -> readAll g l = Some L.
Proof.
  intros Hfg. induction l as [|x l IH]; intros L H; [exact H|].
  cbn [readAll] in *.
  destruct (f x) as [y|] eqn:Ex; [|discriminate].
  destruct (readAll f l) as [ys|]; [|discriminate].
  rewrite (Hfg _ _ Ex), (IH _ eq_refl). exact H.
Qed.

Lemma read_lift (n : nat) :
  forall m h h' v (T : Val),
    Store.preserved h h' -> n <= m ->
    rd n h v = Some T -> rd m h' v = Some T.
Proof.
  induction n as [|n IH]; intros m h h' v T Hp Hle H.
  - destruct v; try (destruct m; exact H). cbn [read] in H. discriminate.
  - destruct v as [| | | | |l]; try (destruct m; exact H).
    destruct m as [|m]; [lia|]. cbn [read] in *.
    destruct (nth_error h l) as [o|] eqn:El; [|discriminate].
    rewrite (Hp _ _ El).
    destruct o as [ps|es| |]; try discriminate.
    + destruct (readProps (read n h) ps) as [fs|] eqn:E; [|discriminate].
      erewrite readProps_impl; [exact H| |exact E].
      intros x y Hx. eapply IH; [exact Hp|lia|exact Hx].
    + destruct (readAll (read n h) es) as [fs|] eqn:E; [|discriminate].
      erewrite readAll_impl; [exact H| |exact E].
      intros x y Hx. eapply IH; [exact Hp|lia|exact Hx].
Qed.

Lemma readProps_lift (n m : nat) (h h' : Store.heap) (ps : Store.props) (P : list (string * Val)) :
  Store.preserved h h' -> n <= m ->
  readProps (rd n h) ps = Some P -> readProps (rd m h') ps = Some P.
Proof.
  intros Hp Hle. apply readProps_impl. intros x y. apply read_lift; assumption.
Qed.

Lemma readAll_lift (n m : nat) (h h' : Store.heap) (l : list Store.val) (L : list Val) :
  Store.preserved h h' -> n <= m ->
  readAll (rd n h) l = Some L -> readAll (rd m h') l = Some L.
Proof.
  intros Hp Hle. apply readAll_impl. intros x y. apply read_lift; assumption.
Qed.

(** ** Reading and the tests on values *)

Lemma read_kind (n : nat) (h : Store.heap) (v : Store.val) (T : Val) :
  rd n h v = Some T ->
  Store.isPlain h v = isMap T /\
  Store.isArray h v = isArray T /\
  Store.isFunctionType h v = false /\
  Store.isObjectType h v = isObjectType T /\
  Store.truthy v = truthy T.
Proof.
  unfold Store.isPlain, Store.isArray, Store.isFunctionType,
    Store.isObjectType.
  destruct v as [| | | | |l];
    try (destruct n; cbn [read Store.deref]; intros [= <-];
         repeat split; reflexivity).
  destruct n as [|n]; cbn [read Store.deref]; [discriminate|].
  destruct (nth_error h l) as [[ps|es| |]|]; try discriminate.
  - destruct (readProps _ ps); intros [= <-]; repeat split; reflexivity.
  - destruct (readAll _ es); intros [= <-]; repeat split; reflexivity.
Qed.

Lemma read_not_function (n : nat) (h : Store.heap) (v : Store.val) (T : Val) :
  rd n h v = Some T -> isFunction T = false.
Proof.
  destruct v as [| | | | |l];
    try (destruct n; cbn [read]; intros [= <-]; reflexivity).
  destruct n as [|n]; cbn [read]; [discriminate|].
  destruct (nth_error h l) as [[ps|es| |]|]; try discriminate.
  - destruct (readProps _ ps); intros [= <-]; reflexivity.
  - destruct (readAll _ es); intros [= <-]; reflexivity.
Qed.

Lemma read_object (n : nat) (h : Store.heap) (l : Store.loc)
      (ps : Store.props) (T : Val) :
  nth_error h l = Some (Store.Obj ps) ->
  rd n h (Store.Ref l) = Some T ->
  exists m Ps, n = S m /\ readProps (rd m h) ps = Some Ps /\ T = VMap Ps.
Proof.
  intros El. destruct n as [|n]; cbn [read]; [discriminate|]. rewrite El.
  destruct (readProps (read n h) ps) as [Ps|] eqn:E; [|discriminate].
  intros [= <-]. eauto.
Qed.

(** ** Reading property lists *)

Lemma readProps_getProp {A B : Type} (f : A -> option B) (k : string)
      (ps : list (string * A)) (P : list (string * B)) :
  readProps f ps = Some P ->
  getProp k P = match getProp k ps with Some x => f x | None => None end.
Proof.
  revert P. induction ps as [|[k0 x] ps IH]; intros P H.
  - inversion H; subst. reflexivity.
  - cbn [readProps] in H.
    destruct (f x) as [y|] eqn:Ex; [|discriminate].
    destruct (readProps f ps) as [ys|]; [|discriminate].
    inversion H; subst. cbn [getProp].
    destruct (k =? k0); [symmetry; exact Ex|apply IH; reflexivity].
Qed.

Lemma readProps_setProp {A B : Type} (f : A -> option B) (k : string)
      (v : A) (V : B) (ps : list (string * A)) (P : list (string * B)) :
  readProps f ps = Some P -> f v = Some V ->
  readProps f (setProp k v ps) = Some (setProp k V P).
Proof.
  intros H Hv. revert P H. induction ps as [|[k0 x] ps IH]; intros P H.
  - inversion H; subst. cbn [setProp readProps]. rewrite Hv. reflexivity.
  - cbn [readProps] in H.
    destruct (f x) as [y|] eqn:Ex; [|discriminate].
    destruct (readProps f ps) as [ys|] eqn:E; [|discriminate].
    inversion H; subst. cbn [setProp].
    destruct (k =? k0); cbn [readProps].
    + rewrite Hv, E. reflexivity.
    + rewrite Ex, (IH _ eq_refl). reflexivity.
Qed.

Lemma readProps_deleteProp {A B : Type} (f : A -> option B) (k : string)
      (ps : list (string * A)) (P : list (string * B)) :
  readProps f ps = Some P ->
  readProps f (deleteProp k ps) = Some (deleteProp k P).
Proof.
  revert P. induction ps as [|[k0 x] ps IH]; intros P H.
  - inversion H; subst. reflexivity.
  - cbn [readProps] in H.
    destruct (f x) as [y|] eqn:Ex; [|discriminate].
    destruct (readProps f ps) as [ys|] eqn:E; [|discriminate].
    inversion H; subst. cbn [deleteProp].
    destruct (k =? k0); [apply IH; reflexivity|].
    cbn [readProps]. rewrite Ex, (IH _ eq_refl). reflexivity.
Qed.

Lemma readAll_snoc {A B : Type} (f : A -> option B) (l : list A) (L : list B)
      (x : A) (X : B) :
  readAll f l = Some L -> f x = Some X ->
  readAll f (l ++ [x]) = Some (L ++ [X]).
Proof.
  intros H Hx. revert L H. induction l as [|a l IH]; intros L H.
  - inversion H; subst. cbn [app readAll]. rewrite Hx. reflexivity.
  - cbn [readAll] in H.
    destruct (f a) as [y|] eqn:Ea; [|discriminate].
    destruct (readAll f l) as [ys|] eqn:E; [|discriminate].
    inversion H; subst. cbn [app readAll].
    rewrite Ea, (IH _ eq_refl). reflexivity.
Qed.

(** ** Objects built during the call *)

Lemma builtAt_preserved (h0 h : Store.heap) (r : Store.val) (R : Val) :
  builtAt h0 h r R -> Store.preserved h0 h.
Proof.
  intros (hp & l & ps & Ps & n & _ & H0 & _ & Hp & _).
  eapply preserved_trans; eassumption.
Qed.

Lemma builtAt_new (h0 h : Store.heap) (r : Store.val) (R : Val) :
  builtAt h0 h r R -> Store.newIn h0 r.
Proof.
  intros (hp & l & ps & Ps & n & -> & H0 & Hl & _).
  exists l. split; [reflexivity|]. apply preserved_length in H0. lia.
Qed.

Lemma builtAt_read (h0 h : Store.heap) (r : Store.val) (R : Val) :
  builtAt h0 h r R -> exists n, rd n h r = Some R.
Proof.
  intros (hp & l & ps & Ps & n & -> & _ & _ & Hp & El & Hps & ->).
  exists (S n). cbn [read]. rewrite El.
  rewrite (@readProps_lift n n hp h ps Ps Hp (le_n n) Hps). reflexivity.
Qed.

Lemma builtAt_alloc (h0 h : Store.heap) (ps : Store.props)
      (Ps : list (string * Val)) (n : nat) :
  Store.preserved h0 h ->
  readProps (rd n h) ps = Some Ps ->
  builtAt h0 (h ++ [Store.Obj ps]) (Store.Ref (List.length h)) (VMap Ps).
Proof.
  intros H0 Hps. exists h, (List.length h), ps, Ps, n.
  repeat split; auto using preserved_app.
  rewrite nth_error_app2, Nat.sub_diag by lia. reflexivity.
Qed.

Lemma builtAt_from (h0 h1 h : Store.heap) (r : Store.val) (R : Val) :
  Store.preserved h0 h1 -> builtAt h1 h r R -> builtAt h0 h r R.
Proof.
  intros H01 (hp & l & ps & Ps & n & -> & H1 & Hl & Hp & El & Hps & ->).
  exists hp, l, ps, Ps, n. repeat split; auto.
  eapply preserved_trans; eassumption.
Qed.

Lemma nth_error_update_same (l : Store.loc) (o o' : Store.obj) (h : Store.heap) :
  nth_error h l = Some o -> nth_error (Store.update l o' h) l = Some o'.
Proof.
  revert l. induction h as [|x h IH]; intros l H; destruct l; try discriminate.
  - reflexivity.
  - simpl in *. apply IH, H.
Qed.

Lemma builtAt_delete (h0 h h' : Store.heap) (r : Store.val)
      (Ps : list (string * Val)) (k : string) :
  builtAt h0 h r (VMap Ps) ->
  Store.deleteAt r k h = Some (tt, h') ->
  builtAt h0 h' r (VMap (deleteProp k Ps)).
Proof.
  intros (hp & l & ps & Ps' & n & -> & H0 & Hl & Hp & El & Hps & [= ->]).
  unfold Store.deleteAt. rewrite El. intros [= <-].
  exists hp, l, (deleteProp k ps), (deleteProp k Ps'), n.
  repeat split; auto.
  - apply preserved_update_fresh; assumption.
  - eapply nth_error_update_same; exact El.
  - apply readProps_deleteProp; assumption.
Qed.

(** ** mergeDeep *)

Lemma readProps_getProp_some {A B : Type} (f : A -> option B) (k : string)
      (ps : list (string * A)) (P : list (string * B)) (x : A) :
  readProps f ps = Some P -> getProp k ps = Some x ->
  exists y, f x = Some y /\ getProp k P = Some y.
Proof.
  intros H Hx. rewrite (readProps_getProp f k ps P H), Hx.
  revert P H. induction ps as [|[k0 x0] ps IH]; intros P H; [discriminate|].
  cbn [readProps getProp] in *.
  destruct (f x0) as [y0|] eqn:E0; [|discriminate].
  destruct (readProps f ps) as [ys|]; [|discriminate].
  destruct (k =? k0).
  - inversion Hx; subst. eauto.
  - eapply IH; eauto.
Qed.

Lemma mergeDeep_not_map_target (t s : Val) :
  isMap t = false -> mergeDeep t s = t.
Proof. destruct t, s; simpl; intros; congruence. Qed.

Lemma laterOver_not_both (Tv : option Val) (Sv : Val) :
  match Tv with Some T => isMap T && isMap Sv | None => false end = false ->
  laterOver Tv Sv = Sv.
Proof.
  destruct Tv as [T|]; [|destruct Sv; reflexivity].
  destruct T, Sv; simpl; intros; try reflexivity; discriminate.
Qed.

Lemma laterOver_both (T Sv : Val) :
  isMap T = true -> isMap Sv = true -> laterOver (Some T) Sv = mergeDeep T Sv.
Proof. destruct T, Sv; simpl; intros; try discriminate; reflexivity. Qed.

Section AssignLoop.

Variable fuel0 : nat.
Hypothesis IHf :
  forall t s h v h' n (T S : Val),
    Store.mergeDeep fuel0 t s h = Some (v, h') ->
    rd n h t = Some T -> rd n h s = Some S ->
    exists n', rd n' h' v = Some (mergeDeep T S).

Lemma assign_refines (tf : Store.props) (Tf : list (string * Val)) :
  forall (sf : Store.props) (Sf : list (string * Val))
         (out : Store.props) (Out : list (string * Val))
         (h : Store.heap) (n : nat) (out' : Store.props) (h' : Store.heap),
    readProps (rd n h) tf = Some Tf ->
    readProps (rd n h) sf = Some Sf ->
    readProps (rd n h) out = Some Out ->
    Store.assignProps (Store.mergeDeep fuel0) tf out sf h = Some (out', h') ->
    exists n', readProps (rd n' h') out' = Some (assignProps Tf Out Sf).
Proof.
  induction sf as [|[k sv] sf IH]; intros Sf out Out h n out' h' Htf Hsf Hout H.
  - inversion Hsf; subst. inversion H; subst. exists n. exact Hout.
  - cbn [readProps] in Hsf.
    destruct (rd n h sv) as [Sv|] eqn:Esv; [|discriminate].
    destruct (readProps (rd n h) sf) as [Sf'|] eqn:Esf; [|discriminate].
    inversion Hsf; subst Sf; clear Hsf.
    cbn [Store.assignProps] in H.
    apply bind_inv in H as (v & h1 & Hv & Hrest).
    assert (Store.preserved h h1 /\
            exists n1, rd n1 h1 v = Some (laterOver (getProp k Tf) Sv))
      as [Hp (n1 & Hn1)].
    { destruct (getProp k tf) as [tv|] eqn:Etv.
      - destruct (readProps_getProp_some _ _ _ _ _ Htf Etv) as (Tv & HTv & HgT).
        rewrite HgT.
        destruct (read_kind _ _ _ _ HTv) as (Kt & _).
        destruct (read_kind _ _ _ _ Esv) as (Ks & _).
        destruct (Store.isPlain h tv && Store.isPlain h sv) eqn:Eb.
        + apply andb_true_iff in Eb as [Bt Bs].
          rewrite laterOver_both by congruence.
          split; [eapply mergeDeep_frame; exact Hv|].
          eapply IHf; eassumption.
        + inversion Hv; subst. split; [apply preserved_refl|].
          exists n. rewrite laterOver_not_both; [exact Esv|].
          rewrite <- Kt, <- Ks. exact Eb.
      - inversion Hv; subst. split; [apply preserved_refl|].
        exists n.
        rewrite (readProps_getProp (rd n h1) k tf Tf Htf), Etv.
        rewrite laterOver_not_both by reflexivity. exact Esv. }
    eapply (IH Sf' (setProp k v out) _ h1 (Nat.max n n1)); [| | |exact Hrest].
    + eapply readProps_lift; [exact Hp|apply Nat.le_max_l|exact Htf].
    + eapply readProps_lift; [exact Hp|apply Nat.le_max_l|exact Esf].
    + apply readProps_setProp.
      * eapply readProps_lift; [exact Hp|apply Nat.le_max_l|exact Hout].
      * eapply read_lift; [apply preserved_refl|apply Nat.le_max_r|exact Hn1].
Qed.

End AssignLoop.

Lemma mergeDeep_refines (fuel : nat) :
  forall t s h v h' n (T S : Val),
    Store.mergeDeep fuel t s h = Some (v, h') ->
    rd n h t = Some T -> rd n h s = Some S ->
    (v = t /\ h' = h /\ mergeDeep T S = T) \/ builtAt h h' v (mergeDeep T S).
Proof.
  induction fuel as [|fuel IH]; intros t s h v h' n T S H HT HS;
    [discriminate|].
  destruct (read_kind _ _ _ _ HT) as (Kt & _).
  destruct (read_kind _ _ _ _ HS) as (Ks & _).
  cbn [Store.mergeDeep] in H. unfold Store.isPlain in Kt, Ks.
  destruct (Store.deref h t) as [[tf| | |]|] eqn:Et;
    try (left; inversion H; subst; repeat split;
         apply mergeDeep_not_map_target; congruence).
  destruct (Store.deref h s) as [[sf| | |]|] eqn:Es;
    try (left; inversion H; subst; repeat split;
         apply mergeDeep_not_map_source; congruence).
  right.
  destruct t as [| | | | |lt]; try discriminate.
  destruct s as [| | | | |ls]; try discriminate.
  cbn [Store.deref] in Et, Es.
  destruct (read_object _ _ _ _ _ Et HT) as (m & Tf & -> & HTf & ->).
  destruct (read_object _ _ _ _ _ Es HS) as (m' & Sf & [= <-] & HSf & ->).
  apply bind_inv in H as (out & h1 & Hout & Halloc).
  unfold Store.alloc in Halloc. inversion Halloc; subst; clear Halloc.
  assert (Store.preserved h h1) as Hp.
  { eapply assignProps_frame; [|exact Hout].
    intros t0 s0 h0 v0 h0' H0. eapply mergeDeep_frame; exact H0. }
  assert (forall t0 s0 h0 v0 h0' n0 (T0 S0 : Val),
             Store.mergeDeep fuel t0 s0 h0 = Some (v0, h0') ->
             rd n0 h0 t0 = Some T0 -> rd n0 h0 s0 = Some S0 ->
             exists n', rd n' h0' v0 = Some (mergeDeep T0 S0)) as IHr.
  { intros t0 s0 h0 v0 h0' n0 T0 S0 H0 HT0 HS0.
    destruct (IH _ _ _ _ _ _ _ _ H0 HT0 HS0) as [(-> & -> & ->)|Hb].
    - eauto.
    - eapply builtAt_read; exact Hb. }
  destruct (assign_refines fuel IHr tf Tf sf Sf tf Tf h m out h1 HTf HSf HTf Hout)
    as (n' & Hn').
  rewrite mergeDeep_maps. eapply builtAt_alloc; eassumption.
Qed.

(** ** The merge of the collected objects *)

Lemma reduce_refines (fuel : nat) (h0 : Store.heap) :
  forall (arr : list Store.val) (Arr : list Val) (acc : Store.val) (Acc : Val)
         (h : Store.heap) (n : nat) (v : Store.val) (h' : Store.heap),
    readAll (rd n h) arr = Some Arr ->
    builtAt h0 h acc Acc ->
    Store.reduce (Store.mergeDeep fuel) arr acc h = Some (v, h') ->
    builtAt h0 h' v (fold_left mergeDeep Arr Acc).
Proof.
  induction arr as [|x arr IH]; intros Arr acc Acc h n v h' Harr Hacc H.
  - inversion Harr; subst. inversion H; subst. exact Hacc.
  - cbn [readAll] in Harr.
    destruct (rd n h x) as [X|] eqn:Ex; [|discriminate].
    destruct (readAll (rd n h) arr) as [Arr'|] eqn:Ea; [|discriminate].
    inversion Harr; subst Arr; clear Harr.
    cbn [Store.reduce] in H. apply bind_inv in H as (acc' & h1 & Hm & Hrest).
    destruct (builtAt_read _ _ _ _ Hacc) as (na & Hna).
    pose proof (proj1 (mergeDeep_frame _ _ _ _ Hm)) as Hp.
    assert (rd (Nat.max n na) h acc = Some Acc) as HA
        by (eapply read_lift; [apply preserved_refl|apply Nat.le_max_r|exact Hna]).
    assert (rd (Nat.max n na) h x = Some X) as HX
        by (eapply read_lift; [apply preserved_refl|apply Nat.le_max_l|exact Ex]).
    cbn [fold_left].
    destruct (mergeDeep_refines _ _ _ _ _ _ _ _ _ Hm HA HX)
      as [(-> & -> & ->)|Hb].
    + eapply IH; eassumption.
    + eapply (IH Arr' acc' _ h1 n); [|eapply builtAt_from; [|exact Hb]|exact Hrest].
      * eapply readAll_lift; [exact Hp|apply le_n|exact Ea].
      * eapply builtAt_preserved; exact Hacc.
Qed.

(** ** The collecting loop *)

Section CollectLoop.

Variable recur : Store.val -> Store.M Store.val.
Hypothesis Hrec :
  forall g h v h' n (G : Val),
    recur g h = Some (v, h') -> rd n h g = Some G ->
    Store.preserved h h' /\
    exists n', rd n' h' v = Some (mergeResolvers (definitionsOf G) None).

Lemma collect_refines :
  forall (defs : list Store.val) (Ds : list Val) (c : Store.Collected)
         (Rs : list Val) (h : Store.heap) (n : nat)
         (c' : Store.Collected) (h' : Store.heap),
    readAll (rd n h) defs = Some Ds ->
    Store.resolversFactories c = [] ->
    readAll (rd n h) (Store.resolvers c) = Some Rs ->
    Store.collect recur defs c h = Some (c', h') ->
    Store.preserved h h' /\
    Store.resolversFactories c' = [] /\
    filter isFunction (map flatten Ds) = [] /\
    exists n',
      readAll (rd n' h') (Store.resolvers c')
      = Some (Rs ++ filter isObjectType (map flatten Ds)).
Proof.
  induction defs as [|d defs IH]; intros Ds c Rs h n c' h' Hdefs Hfac Hres H.
  - inversion Hdefs; subst. inversion H; subst.
    repeat split; auto using preserved_refl.
    exists n. cbn [map filter]. rewrite app_nil_r. exact Hres.
  - cbn [readAll] in Hdefs.
    destruct (rd n h d) as [D|] eqn:Ed; [|discriminate].
    destruct (readAll (rd n h) defs) as [Ds'|] eqn:Eds; [|discriminate].
    inversion Hdefs; subst Ds; clear Hdefs.
    cbn [Store.collect] in H.
    apply bind_inv in H as (d' & h1 & Hd & H).
    apply bind_inv in H as (c1 & h2 & Hc & H).
    pose proof Hc as Hh2. apply classify_frame in Hh2. subst h2.
    assert (Store.preserved h h1 /\ exists n1, rd n1 h1 d' = Some (flatten D))
      as [Hp (n1 & Hn1)].
    { destruct (read_kind _ _ _ _ Ed) as (_ & Ka & _).
      destruct (Store.isArray h d) eqn:Ea.
      - destruct (Hrec _ _ _ _ _ _ Hd Ed) as [Hp (n1 & Hn1)].
        split; [exact Hp|]. exists n1.
        destruct D; try discriminate. exact Hn1.
      - inversion Hd; subst. split; [apply preserved_refl|]. exists n.
        rewrite flatten_keep by congruence. exact Ed. }
    destruct (read_kind _ _ _ _ Hn1) as (_ & _ & Kf & Ko & _).
    pose proof (read_not_function _ _ _ _ Hn1) as Hnf.
    set (N := Nat.max n n1).
    assert (readAll (rd N h1) defs = Some Ds') as Hdefs'
        by (eapply readAll_lift; [exact Hp|apply Nat.le_max_l|exact Eds]).
    assert (readAll (rd N h1) (Store.resolvers c) = Some Rs) as Hres'
        by (eapply readAll_lift; [exact Hp|apply Nat.le_max_l|exact Hres]).
    assert (rd N h1 d' = Some (flatten D)) as Hd'
        by (eapply read_lift; [apply preserved_refl|apply Nat.le_max_r|exact Hn1]).
    unfold Store.classify in Hc. rewrite Kf, Ko in Hc.
    cbn [map filter]. rewrite Hnf.
    destruct (isObjectType (flatten D)) eqn:Eo; inversion Hc; subst c1; clear Hc.
    + destruct (IH Ds'
                   {| Store.resolversFactories := Store.resolversFactories c;
                      Store.resolvers := Store.resolvers c ++ [d'] |}
                   (Rs ++ [flatten D]) h1 N c' h' Hdefs' Hfac
                   (readAll_snoc _ _ _ _ _ Hres' Hd') H)
        as (Hp' & Hf' & Hnf' & n' & Hn').
      repeat split; auto.
      * eapply preserved_trans; eassumption.
      * exists n'. rewrite Hn', <- app_assoc. reflexivity.
    + destruct (IH Ds' c Rs h1 N c' h' Hdefs' Hfac Hres' H)
        as (Hp' & Hf' & Hnf' & n' & Hn').
      repeat split; auto.
      * eapply preserved_trans; eassumption.
      * exists n'. exact Hn'.
Qed.

End CollectLoop.

(** ** Exclusions of whole types *)

Lemma applyEach_refines (h0 : Store.heap) (r : Store.val) (excl : list string) :
  forallb wholeType excl = true ->
  forall (Ps : list (string * Val)) (h h' : Store.heap),
    builtAt h0 h r (VMap Ps) ->
    Store.applyEach r excl h = Some (tt, h') ->
    builtAt h0 h' r (fold_left applyExclusion excl (VMap Ps)).
Proof.
  induction excl as [|e excl IH]; intros Hw Ps h h' Hb H.
  - inversion H; subst. exact Hb.
  - cbn [forallb] in Hw. apply andb_true_iff in Hw as [He Hw].
    cbn [Store.applyEach] in H. apply bind_inv in H as ([] & h1 & H1 & H).
    rewrite applyExclusion_whole_store in H1 by exact He.
    cbn [fold_left]. rewrite applyExclusion_whole by exact He.
    cbn [deleteKey]. eapply IH; [exact Hw| |exact H].
    eapply builtAt_delete; eassumption.
Qed.

Lemma applyExclusions_refines (h0 h h' : Store.heap) (r : Store.val)
      (options : option MergeResolversOptions) (R : Val) :
  Store.noFieldExclusion options = true ->
  isMap R = true ->
  builtAt h0 h r R ->
  Store.applyExclusions options r h = Some (tt, h') ->
  builtAt h0 h' r (applyExclusions options R).
Proof.
  intros Hno HR Hb H. destruct R; try discriminate.
  destruct options as [[[excl|]]|];
    cbn [Store.applyExclusions applyExclusions] in *;
    try (inversion H; subst; exact Hb).
  eapply applyEach_refines; eassumption.
Qed.

(** ** mergeResolvers *)

(** On definitions that hold no function, and with no exclusion that names
    a field, the result of the store model reads as the result of the tree
    model on the definitions read before the call. *)
Theorem store_refines_tree (fuel : nat) :
  forall (resolversDefinitions : Store.val)
         (options : option MergeResolversOptions)
         (h : Store.heap) (v : Store.val) (h' : Store.heap)
         (n : nat) (D : Val),
    Store.noFieldExclusion options = true ->
    Store.mergeResolvers fuel resolversDefinitions options h = Some (v, h') ->
    rd n h resolversDefinitions = Some D ->
    exists n', rd n' h' v = Some (mergeResolvers (definitionsOf D) options).
Proof.
  induction fuel as [|fuel IH]; intros defs options h v h' n D Hno H HD;
    [discriminate|].
  cbn [Store.mergeResolvers] in H.
  assert (forall R : Val,
             R = emptyMap ->
             Store.alloc (Store.Obj []) h = Some (v, h') ->
             exists n', rd n' h' v = Some R) as Hempty.
  { intros R -> Ha. unfold Store.alloc in Ha. inversion Ha; subst.
    exists 1. cbn [read].
    rewrite nth_error_app2, Nat.sub_diag by lia. reflexivity. }
  destruct defs as [| | | | |l]; cbn [Store.deref] in H; try discriminate H.
  { assert (D = VUndefined) as ->
        by (destruct n; cbn [read] in HD; congruence).
    apply Hempty; [reflexivity|exact H]. }
  { assert (D = VNull) as ->
        by (destruct n; cbn [read] in HD; congruence).
    apply Hempty; [reflexivity|exact H]. }
  destruct n as [|n]; cbn [read] in HD; [discriminate|].
  destruct (nth_error h l) as [[ps|elems| |]|]; try discriminate.
  destruct (readAll (read n h) elems) as [Ds|] eqn:Eds; [|discriminate].
  inversion HD; subst D; clear HD. cbn [definitionsOf].
  destruct elems as [|a [|b rest]].
  - inversion Eds; subst. apply Hempty; [reflexivity|exact H].
  - cbn [readAll] in Eds.
    destruct (read n h a) as [A|] eqn:Ea; [|discriminate].
    inversion Eds; subst Ds; clear Eds.
    destruct (read_kind _ _ _ _ Ea) as (_ & Ka & _).
    change (mergeResolvers (Some [A]) options) with (flatten A).
    destruct (Store.isArray h a) eqn:Eia.
    + destruct (IH a None h v h' n A eq_refl H Ea) as (n' & Hn').
      exists n'. destruct A; try discriminate. exact Hn'.
    + inversion H; subst. exists n.
      rewrite flatten_keep by congruence. exact Ea.
  - assert (2 <= List.length Ds) as Hlen.
    { cbn [readAll] in Eds.
      destruct (read n h a); [|discriminate].
      destruct (read n h b); [|discriminate].
      destruct (readAll (read n h) rest); [|discriminate].
      inversion Eds; subst. cbn [List.length]. lia. }
    apply bind_inv in H as (c & h1 & Hc & H).
    apply bind_inv in H as (result & h2 & Hr & H).
    apply bind_inv in H as ([] & h3 & He & H).
    inversion H; subst; clear H.
    destruct (collect_refines
                (fun group => Store.mergeResolvers fuel group None)) with
      (2 := Eds) (5 := Hc) (c := Store.noneCollected) (Rs := @nil Val)
      as (Hp1 & Hfac & Hnf & n1 & Hn1); try reflexivity.
    { intros g h0 v0 h0' n0 G H0 HG. split.
      - eapply inputs_preserved_without_field_exclusion; [|exact H0].
        reflexivity.
      - eapply IH; [|exact H0|exact HG]. reflexivity. }
    rewrite Hfac in Hr. cbn [app] in Hn1.
    apply bind_inv in Hr as (empty & h1' & Hempty' & Hred).
    unfold Store.alloc in Hempty'. inversion Hempty'; subst; clear Hempty'.
    assert (builtAt h1 (h1 ++ [Store.Obj []]) (Store.Ref (List.length h1))
                    (@emptyMap Args World)) as Hb0
        by (apply (builtAt_alloc h1 h1 [] [] 0); [apply preserved_refl|reflexivity]).
    assert (builtAt h1 h2 v
                    (mergeAll (filter isObjectType (map flatten Ds)))) as Hb.
    { eapply reduce_refines; [|exact Hb0|exact Hred].
      eapply readAll_lift; [apply preserved_app|apply le_n|exact Hn1]. }
    eapply applyExclusions_refines in He;
      [|exact Hno|apply mergeAll_isMap|exact Hb].
    destruct (builtAt_read _ _ _ _ He) as (n' & Hn').
    exists n'. rewrite Hn'. f_equal.
    rewrite mergeResolvers_many by exact Hlen.
    unfold mergeFlat, mergeCollected. rewrite classify_fold.
    cbn [resolversFactories resolvers noneCollected app]. rewrite Hnf.
    reflexivity.
Qed.

End Refinement.

Set Implicit Arguments.

(* ================================================================== *)
(** * Further properties of the tree model *)

Section CoverageFacts.

Context {Args World : Type}.
Local Abbreviation Val := (@Value Args World).
Local Abbreviation Flds := (@Fields Args World).
Local Abbreviation Opts := (option MergeResolversOptions).

(** ** What the result can be *)

(** X1: whatever the definitions and the options, the result is not an
    array: a single Group is unwrapped down to what it holds, and a merge
    gives an object or a function. *)
Theorem X1_result_never_array (resolversDefinitions : option (list Val))
        (options : Opts) :
  isArray (mergeResolvers resolversDefinitions options) = false.
Proof.
  destruct resolversDefinitions as [defs|]; [|reflexivity].
  apply dispatch_not_array. rewrite Forall_map.
  apply Forall_forall. intros d _. apply flatten_not_array.
Qed.

Lemma isFunction_mergeFlat (flat : list Val) (options : Opts) :
  isFunction (mergeFlat flat options) = existsb isFunction flat.
Proof.
  destruct (existsb isFunction flat) eqn:E.
  - rewrite mergeFlat_factory by (apply existsb_filter_nonempty, E).
    reflexivity.
  - assert (filter isFunction flat = []) as Hf.
    { clear - E. induction flat as [|x l IH]; [reflexivity|].
      simpl in *. apply orb_false_iff in E as [-> E]. auto. }
    rewrite mergeFlat_no_factory by exact Hf.
    pose proof (mergeAll_isMap (filter isMap flat)) as Hm.
    destruct (mergeAll (filter isMap flat)) as [| | | | | |merged|];
      try discriminate.
    destruct options as [[[excl|]]|]; try reflexivity.
    cbn [applyExclusions]. clear. revert merged.
    induction excl as [|e excl IH]; intros merged; [reflexivity|].
    cbn [fold_left]. destruct (applyExclusion_map e merged) as [fs' ->].
    apply IH.
Qed.

Lemma isFunction_dispatch (flat : list Val) (options : Opts) :
  isFunction (dispatch flat options) = existsb isFunction flat.
Proof.
  destruct flat as [|a [|b rest]].
  - reflexivity.
  - cbn [dispatch existsb]. rewrite orb_false_r. reflexivity.
  - apply isFunction_mergeFlat.
Qed.

Lemma isFunction_flatten (d : Val) : isFunction (flatten d) = hasFactory d.
Proof.
  induction d as [| | | | | |fs IH|group IH] using Value_nested_ind;
    try reflexivity.
  cbn [flatten hasFactory]. rewrite isFunction_dispatch.
  induction IH as [|x l Hx _ IHl]; [reflexivity|].
  cbn [map existsb]. rewrite Hx, IHl. reflexivity.
Qed.


(** ** The calls a function result makes *)

Lemma callEach_app_world (l1 l2 : list Val) (args : Args) (w : World) :
  snd (callEach (l1 ++ l2) args w)
  = snd (callEach l2 args (snd (callEach l1 args w))).
Proof.
  revert w. induction l1 as [|f l1 IH]; intros w; [reflexivity|].
  cbn [app callEach]. destruct (call f args w) as [v w1].
  specialize (IH w1).
  destruct (callEach (l1 ++ l2) args w1) as [vs w2].
  destruct (callEach l1 args w1) as [vs1 w1']. cbn [snd] in *.
  exact IH.
Qed.

Lemma callEach_one_world (f : Val) (args : Args) (w : World) :
  snd (callEach [f] args w) = snd (call f args w).
Proof.
  cbn [callEach]. destruct (call f args w) as [v w1]. reflexivity.
Qed.

Lemma call_not_function_world (d : Val) (args : Args) (w : World) :
  isFunction d = false -> snd (call d args w) = w.
Proof. destruct d; try reflexivity. discriminate. Qed.

Lemma world_mergeFlat (flat : list Val) (options : Opts) (args : Args)
      (w : World) :
  snd (call (mergeFlat flat options) args w)
  = snd (callEach (filter isFunction flat) args w).
Proof.
  destruct (filter isFunction flat) as [|f fs] eqn:E.
  - apply call_not_function_world.
    rewrite isFunction_mergeFlat.
    clear - E. induction flat as [|x l IH]; [reflexivity|].
    cbn [filter existsb] in *. destruct (isFunction x); [discriminate|].
    apply IH, E.
  - rewrite mergeFlat_factory by congruence. rewrite E.
    unfold mergedFactory. cbn [call resolversFactories resolvers].
    destruct (callEach (f :: fs) args w) as [rs w']. reflexivity.
Qed.

Lemma world_dispatch (flat : list Val) (options : Opts) (args : Args)
      (w : World) :
  snd (call (dispatch flat options) args w)
  = snd (callEach (filter isFunction flat) args w).
Proof.
  destruct flat as [|a [|b rest]].
  - reflexivity.
  - cbn [dispatch filter]. destruct (isFunction a) eqn:E.
    + rewrite callEach_one_world. reflexivity.
    + apply call_not_function_world, E.
  - apply world_mergeFlat.
Qed.

Lemma world_of_flattened (args : Args) (group : list Val) :
  Forall (fun d => forall w,
              snd (call (flatten d) args w)
              = snd (callEach (factoryLeaves d) args w)) group ->
  forall w,
    snd (callEach (filter isFunction (map flatten group)) args w)
    = snd (callEach (flat_map factoryLeaves group) args w).
Proof.
  induction 1 as [|x l Hx _ IH]; intros w; [reflexivity|].
  cbn [map filter flat_map]. rewrite callEach_app_world, <- Hx, <- IH.
  destruct (isFunction (flatten x)) eqn:E.
  - change (flatten x :: filter isFunction (map flatten l))
      with ([flatten x] ++ filter isFunction (map flatten l)).
    rewrite callEach_app_world, callEach_one_world. reflexivity.
  - rewrite (call_not_function_world _ args w E). reflexivity.
Qed.

Lemma world_flatten (args : Args) (d : Val) :
  forall w,
    snd (call (flatten d) args w)
    = snd (callEach (factoryLeaves d) args w).
Proof.
  induction d as [| | | | | |fs IH|group IH] using Value_nested_ind;
    intros w; try reflexivity.
  - cbn [flatten factoryLeaves]. rewrite callEach_one_world. reflexivity.
  - cbn [flatten factoryLeaves]. rewrite world_dispatch.
    apply world_of_flattened, IH.
Qed.


(** ** The depth of the nested calls *)

Lemma collect_stays_none (recur : list Val -> option Val) (defs : list Val) :
  fold_left (collectStep recur) defs None = None.
Proof. induction defs as [|d defs IH]; [reflexivity|exact IH]. Qed.

Lemma loop_without_fuel (recur : list Val -> option Val) (bound : nat) :
  (forall group, bound <= depthAll group -> recur group = None) ->
  forall (defs : list Val) (acc : option Collected),
    S bound <= depthAll defs ->
    fold_left (collectStep recur) defs acc = None.
Proof.
  intros Hrec defs.
  induction defs as [|d defs IHd]; intros acc Hd.
  - cbn in Hd. lia.
  - rewrite depthAll_cons in Hd. cbn [fold_left].
    destruct (le_lt_dec (S bound) (depth d)) as [Hdd|Hdd].
    + destruct d; cbn [depth] in Hdd; try lia.
      fold (depthAll elems) in Hdd.
      destruct acc as [c|]; cbn [collectStep];
        [rewrite Hrec by lia|]; apply collect_stays_none.
    + apply IHd. lia.
Qed.

Lemma fuel_too_small (fuel : nat) :
  forall (defs : list Val) (options : Opts),
    fuel <= depthAll defs ->
    mergeResolvers_fuel fuel (Some defs) options = None.
Proof.
  induction fuel as [|fuel' IH]; intros defs options Hd; [reflexivity|].
  destruct defs as [|a [|b rest]].
  - cbn in Hd. lia.
  - rewrite depthAll_cons in Hd. cbn in Hd.
    rewrite Nat.max_0_r in Hd.
    destruct a; cbn [depth] in Hd; try lia.
    fold (depthAll elems) in Hd.
    cbn [mergeResolvers_fuel]. apply IH. lia.
  - cbn [mergeResolvers_fuel].
    rewrite (@loop_without_fuel
               (fun g => mergeResolvers_fuel fuel' (Some g) None) fuel'
               (fun g Hg => IH g None Hg) (a :: b :: rest)
               (Some noneCollected) Hd).
    reflexivity.
Qed.

(** X3: the nested calls of [mergeResolvers] go exactly as deep as the
    Groups nest, plus one: the call runs out of fuel exactly when the fuel
    does not exceed the nesting depth of the definitions. *)
Theorem X3_fuel_needed_is_depth (defs : list Val) (options : Opts)
        (fuel : nat) :
  mergeResolvers_fuel fuel (Some defs) options = None <->
  fuel <= depthAll defs.
Proof.
  split.
  - intros H. destruct (le_lt_dec fuel (depthAll defs)) as [|Hlt]; [assumption|].
    rewrite fuel_enough in H by exact Hlt. discriminate.
  - apply fuel_too_small.
Qed.

(** ** Definitions that are not recognised, or differently arranged *)

Lemma applyExclusions_empty (options : Opts) :
  applyExclusions options (@emptyMap Args World) = emptyMap.
Proof.
  destruct options as [[[excl|]]|]; try reflexivity.
  cbn [applyExclusions]. induction excl as [|e excl IH]; [reflexivity|].
  cbn [fold_left].
  assert (applyExclusion (@emptyMap Args World) e = emptyMap) as ->; [|exact IH].
  unfold applyExclusion, emptyMap.
  destruct (nth_error (split dot e) 1) as [fld|]; [|reflexivity].
  destruct ((fld =? "") || (fld =? "*")); reflexivity.
Qed.


(** X5: with two or more definitions the result depends only on the
    functions among them, in their order, and on the values of type
    [object] among them, in their order; how the two kinds interleave and
    what else stands between them makes no difference. *)
Theorem X5_only_the_two_orders_matter (A B : list Val) (options : Opts) :
  2 <= List.length A ->
  2 <= List.length B ->
  filter isFunction (map flatten A) = filter isFunction (map flatten B) ->
  filter isObjectType (map flatten A) = filter isObjectType (map flatten B) ->
  mergeResolvers (Some A) options = mergeResolvers (Some B) options.
Proof.
  intros HA HB HF HO. rewrite !mergeResolvers_many by assumption.
  apply mergeFlat_equal; assumption.
Qed.

Lemma flatten_wrap (n : nat) (d : Val) : flatten (wrap n d) = flatten d.
Proof. induction n as [|n IH]; [reflexivity|exact IH]. Qed.

(** X13: a definition wrapped in any number of one-element Groups, at any
    place among the definitions, gives the result of the definition
    itself. *)
Theorem X13_one_element_groups_are_transparent
        (before after : list Val) (d : Val) (n : nat) (options : Opts) :
  mergeResolvers (Some (before ++ wrap n d :: after)) options
  = mergeResolvers (Some (before ++ d :: after)) options.
Proof.
  cbn [mergeResolvers]. rewrite !map_app. cbn [map].
  rewrite flatten_wrap. reflexivity.
Qed.

(** ** Exclusions as actions on the merged Map *)

Lemma deleteProp_comm (a b : string) (R : Flds) :
  deleteProp a (deleteProp b R) = deleteProp b (deleteProp a R).
Proof.
  induction R as [|[k v] R IH]; [reflexivity|]. cbn [deleteProp].
  destruct (b =? k) eqn:Eb, (a =? k) eqn:Ea; cbn [deleteProp];
    rewrite ?Ea, ?Eb, ?IH; reflexivity.
Qed.

Lemma deleteProp_idem (a : string) (R : Flds) :
  deleteProp a (deleteProp a R) = deleteProp a R.
Proof.
  induction R as [|[k v] R IH]; [reflexivity|]. cbn [deleteProp].
  destruct (a =? k) eqn:Ea; cbn [deleteProp]; rewrite ?Ea, ?IH; reflexivity.
Qed.

Lemma deleteProp_setProp_same (k : string) (v : Val) (R : Flds) :
  deleteProp k (setProp k v R) = deleteProp k R.
Proof.
  induction R as [|[k0 v0] R IH]; cbn [setProp deleteProp].
  - rewrite String.eqb_refl. reflexivity.
  - destruct (k =? k0) eqn:E; cbn [deleteProp].
    + rewrite String.eqb_refl. reflexivity.
    + rewrite E, IH. reflexivity.
Qed.

Lemma deleteProp_setProp_other (k k' : string) (v x : Val) (R : Flds) :
  (k =? k') = false -> getProp k' R = Some x ->
  deleteProp k (setProp k' v R) = setProp k' v (deleteProp k R).
Proof.
  intros Hne. induction R as [|[k0 v0] R IH]; [discriminate|].
  cbn [getProp setProp deleteProp].
  destruct (k' =? k0) eqn:E'.
  - apply String.eqb_eq in E'; subst k0. intros _.
    cbn [deleteProp]. rewrite Hne. cbn [setProp].
    rewrite String.eqb_refl. reflexivity.
  - intros H. cbn [deleteProp].
    destruct (k =? k0); [apply IH, H|].
    cbn [setProp]. rewrite E', (IH H). reflexivity.
Qed.

Lemma setProp_setProp (k : string) (v v' : Val) (R : Flds) :
  setProp k v' (setProp k v R) = setProp k v' R.
Proof.
  induction R as [|[k0 v0] R IH]; cbn [setProp].
  - rewrite String.eqb_refl. reflexivity.
  - destruct (k =? k0) eqn:E; cbn [setProp].
    + rewrite String.eqb_refl. reflexivity.
    + rewrite E, IH. reflexivity.
Qed.

Lemma setProp_comm (k k' : string) (v v' x y : Val) (R : Flds) :
  (k =? k') = false ->
  getProp k R = Some x -> getProp k' R = Some y ->
  setProp k v (setProp k' v' R) = setProp k' v' (setProp k v R).
Proof.
  intros Hne. assert ((k' =? k) = false) as Hne'
      by (rewrite String.eqb_sym; exact Hne).
  induction R as [|[k0 v0] R IH]; [discriminate|].
  cbn [getProp].
  destruct (k =? k0) eqn:E, (k' =? k0) eqn:E'.
  - apply String.eqb_eq in E, E'. subst. rewrite String.eqb_refl in Hne.
    discriminate.
  - intros _ _. apply String.eqb_eq in E; subst k0.
    repeat (progress (simpl; rewrite ?String.eqb_refl, ?Hne, ?Hne')).
    reflexivity.
  - intros _ _. apply String.eqb_eq in E'; subst k0.
    repeat (progress (simpl; rewrite ?String.eqb_refl, ?Hne, ?Hne')).
    reflexivity.
  - intros Hx Hy.
    repeat (progress (simpl; rewrite ?E, ?E')).
    rewrite (IH Hx Hy). reflexivity.
Qed.

Lemma keys_deleteProp (k : string) (R : Flds) :
  map fst (deleteProp k R) = filter (fun k' => negb (k =? k')) (map fst R).
Proof.
  induction R as [|[k0 v0] R IH]; [reflexivity|].
  cbn [deleteProp map filter fst].
  destruct (k =? k0); cbn [negb map fst]; rewrite IH; reflexivity.
Qed.

Lemma keys_setProp (k : string) (v x : Val) (R : Flds) :
  getProp k R = Some x -> map fst (setProp k v R) = map fst R.
Proof.
  induction R as [|[k0 v0] R IH]; [discriminate|].
  cbn [getProp setProp]. destruct (k =? k0) eqn:E.
  - apply String.eqb_eq in E; subst. reflexivity.
  - intros H. cbn [map fst]. rewrite (IH H). reflexivity.
Qed.

(** The exclusion step is the action read from the exclusion. *)
Lemma applyExclusion_act (R : Flds) (e : string) :
  applyExclusion (VMap R) e = VMap (act (actionOf e) R).
Proof.
  unfold applyExclusion, actionOf, fieldNameOf, typeNameOf.
  rewrite split_head, split_second.
  destruct (after_sep dot e) as [rest|]; [|reflexivity].
  destruct ((before_sep dot rest =? "") || (before_sep dot rest =? "*"));
    [reflexivity|].
  cbn [act getKey].
  destruct (getProp (before_sep dot e) R) as [held|] eqn:E; [|reflexivity].
  destruct held; cbn [truthy deleteKey replaceKey];
    try match goal with |- (if ?c then _ else _) = _ => destruct c end;
    try rewrite (setProp_same _ _ E); reflexivity.
Qed.

Lemma wholeType_action (e : string) :
  wholeType e = true <-> actionOf e = DelType (typeNameOf e).
Proof.
  unfold wholeType, actionOf.
  destruct (fieldNameOf e) as [f|]; [|tauto].
  destruct ((f =? "") || (f =? "*")); split; intros H;
    try reflexivity; discriminate.
Qed.

Lemma fold_applyExclusion (excl : list string) (R : Flds) :
  fold_left applyExclusion excl (VMap R) = VMap (excludeAll excl R).
Proof.
  unfold excludeAll. revert R.
  induction excl as [|e excl IH]; intros R; [reflexivity|].
  cbn [fold_left]. rewrite applyExclusion_act. apply IH.
Qed.

(** With two or more definitions and no function among them, the result
    with exclusions is the merged Map with the actions applied in turn. *)
Lemma excluded_result (defs : list Val) :
  2 <= List.length defs ->
  existsb isFunction (map flatten defs) = false ->
  exists merged,
    mergeResolvers (Some defs) None = VMap merged /\
    forall excl,
      mergeResolvers (Some defs) (Some {| exclusions := Some excl |})
      = VMap (excludeAll excl merged).
Proof.
  intros Hlen Hno.
  assert (filter isFunction (map flatten defs) = []) as Hf.
  { clear - Hno. induction (map flatten defs) as [|x l IH]; [reflexivity|].
    simpl in *. apply orb_false_iff in Hno as [-> Hno]. auto. }
  pose proof (mergeAll_isMap (filter isMap (map flatten defs))) as Hm.
  destruct (mergeAll (filter isMap (map flatten defs)))
    as [| | | | | |merged|] eqn:E; try discriminate.
  exists merged. split.
  - rewrite mergeResolvers_many, mergeFlat_no_factory, E by assumption.
    reflexivity.
  - intros excl.
    rewrite mergeResolvers_many, mergeFlat_no_factory, E by assumption.
    apply fold_applyExclusion.
Qed.

Lemma actionOf_cases (e : string) :
  (wholeType e = true /\ actionOf e = DelType (typeNameOf e)) \/
  (exists f, wholeType e = false /\ fieldNameOf e = Some f /\
             actionOf e = DelField (typeNameOf e) f).
Proof.
  unfold wholeType, actionOf.
  destruct (fieldNameOf e) as [f|]; [|left; split; reflexivity].
  destruct ((f =? "") || (f =? "*")); [left; split; reflexivity|].
  right. exists f. repeat split.
Qed.

Lemma getProp_act_none (T : string) (a : Action) (R : Flds) :
  getProp T R = None -> getProp T (act a R) = None.
Proof.
  intros H. destruct a as [T'|T' f']; cbn [act].
  - rewrite getProp_deleteProp, H. destruct (T =? T'); reflexivity.
  - destruct (getProp T' R) as [held|] eqn:E; [|exact H].
    destruct held; try exact H.
    rewrite getProp_setProp. destruct (T =? T') eqn:ET; [|exact H].
    apply String.eqb_eq in ET; subst. congruence.
Qed.

Lemma fieldAt_act_none (T f : string) (a : Action) (R : Flds) :
  fieldAt T f (VMap R) = None -> fieldAt T f (VMap (act a R)) = None.
Proof.
  unfold fieldAt. cbn [getKey]. intros H.
  destruct a as [T'|T' f']; cbn [act].
  - rewrite getProp_deleteProp. destruct (T =? T'); [reflexivity|exact H].
  - destruct (getProp T' R) as [held|] eqn:E; [|exact H].
    destruct held; try exact H.
    rewrite getProp_setProp. destruct (T =? T') eqn:ET; [|exact H].
    apply String.eqb_eq in ET; subst T'. rewrite E in H.
    rewrite getProp_deleteProp, H. destruct (f =? f'); reflexivity.
Qed.

Lemma fieldAt_of_absent (T f : string) (R : Flds) :
  getProp T R = None -> fieldAt T f (VMap R) = None.
Proof. unfold fieldAt. cbn [getKey]. intros ->. reflexivity. Qed.

Lemma type_deleted (T : string) (R : Flds) :
  getProp T (act (DelType T) R) = None.
Proof. cbn [act]. rewrite getProp_deleteProp, String.eqb_refl. reflexivity. Qed.

Lemma field_deleted (T f : string) (R : Flds) :
  fieldAt T f (VMap (act (DelField T f) R)) = None.
Proof.
  unfold fieldAt. cbn [getKey act].
  destruct (getProp T R) as [held|] eqn:E; [|rewrite E; reflexivity].
  destruct held; rewrite ?E; try reflexivity.
  rewrite getProp_setProp, String.eqb_refl, getProp_deleteProp,
    String.eqb_refl. reflexivity.
Qed.

Lemma excludeAll_establishes (P : Flds -> Prop) (e : string) :
  (forall R, P (act (actionOf e) R)) ->
  (forall R a, P R -> P (act a R)) ->
  forall excl R, In e excl -> P (excludeAll excl R).
Proof.
  intros Hest Hkeep. unfold excludeAll.
  assert (forall excl R, P R ->
            P (fold_left (fun R e => act (actionOf e) R) excl R)) as Hfold.
  { induction excl as [|e' excl IH]; intros R HR; [exact HR|].
    cbn [fold_left]. apply IH, Hkeep, HR. }
  induction excl as [|e' excl IH]; intros R Hin; [destruct Hin|].
  cbn [fold_left]. destruct Hin as [->|Hin].
  - apply Hfold, Hest.
  - apply IH, Hin.
Qed.


Lemma getProp_act_other (T : string) (e : string) (R : Flds) :
  (typeNameOf e =? T) = false ->
  getProp T (act (actionOf e) R) = getProp T R.
Proof.
  intros Hne. rewrite String.eqb_sym in Hne.
  destruct (actionOf_cases e) as [[_ ->]|(f & _ & _ & ->)]; cbn [act].
  - rewrite getProp_deleteProp, Hne. reflexivity.
  - destruct (getProp (typeNameOf e) R) as [held|]; [|reflexivity].
    destruct held; try reflexivity.
    rewrite getProp_setProp, Hne. reflexivity.
Qed.


Lemma fieldAt_act_untouched (T f : string) (e : string) (R : Flds) :
  touches T f e = false ->
  fieldAt T f (VMap (act (actionOf e) R)) = fieldAt T f (VMap R).
Proof.
  unfold touches. intros Ht.
  destruct (typeNameOf e =? T) eqn:ET.
  - apply String.eqb_eq in ET. cbn [andb] in Ht.
    apply orb_false_iff in Ht as [Hw Hf].
    destruct (actionOf_cases e) as [[Hw' _]|(f' & _ & Hf' & ->)];
      [congruence|].
    rewrite Hf' in Hf. rewrite ET. unfold fieldAt. cbn [getKey act].
    destruct (getProp T R) as [held|] eqn:E; [|rewrite E; reflexivity].
    destruct held; rewrite ?E; try reflexivity.
    rewrite getProp_setProp, String.eqb_refl, getProp_deleteProp.
    rewrite String.eqb_sym, Hf. reflexivity.
  - unfold fieldAt. cbn [getKey]. rewrite getProp_act_other by exact ET.
    reflexivity.
Qed.


Lemma keys_act (e : string) (R : Flds) :
  map fst (act (actionOf e) R) =
  filter (fun k => negb (wholeType e && (typeNameOf e =? k))) (map fst R).
Proof.
  destruct (actionOf_cases e) as [[Hw ->]|(f & Hw & _ & ->)];
    rewrite Hw; cbn [act andb].
  - apply keys_deleteProp.
  - cbn [negb].
    assert (forall l : list string, filter (fun _ => true) l = l) as Hid
        by (induction l as [|x l IH]; [reflexivity|cbn; rewrite IH; reflexivity]).
    rewrite Hid.
    destruct (getProp (typeNameOf e) R) as [held|] eqn:E; [|reflexivity].
    destruct held; try reflexivity. eapply keys_setProp; exact E.
Qed.

Lemma filter_filter {A : Type} (p q : A -> bool) (l : list A) :
  filter p (filter q l) = filter (fun x => q x && p x) l.
Proof.
  induction l as [|x l IH]; [reflexivity|]. cbn [filter].
  destruct (q x); cbn [filter andb]; rewrite IH; reflexivity.
Qed.


(** ** The exclusions act as a set *)

Lemma act_comm (a b : Action) (R : Flds) :
  act a (act b R) = act b (act a R).
Proof.
  assert (forall T T' f (R : Flds),
             act (DelType T) (act (DelField T' f) R)
             = act (DelField T' f) (act (DelType T) R)) as Hmixed.
  { clear. intros T T' f R. cbn [act]. rewrite getProp_deleteProp.
    destruct (T' =? T) eqn:E.
    - apply String.eqb_eq in E; subst T'.
      destruct (getProp T R) as [held|]; [|reflexivity].
      destruct held; try reflexivity. apply deleteProp_setProp_same.
    - destruct (getProp T' R) as [held|] eqn:EP; [|reflexivity].
      destruct held; try reflexivity.
      eapply deleteProp_setProp_other; [|exact EP].
      rewrite String.eqb_sym. exact E. }
  destruct a as [T|T f], b as [T'|T' f'].
  - apply deleteProp_comm.
  - apply Hmixed.
  - symmetry. apply Hmixed.
  - cbn [act]. destruct (T =? T') eqn:E.
    + apply String.eqb_eq in E; subst T'.
      destruct (getProp T R) as [held|] eqn:EP; [|rewrite EP; reflexivity].
      destruct held; rewrite ?EP; try reflexivity.
      rewrite !getProp_setProp, !String.eqb_refl, !setProp_setProp.
      rewrite deleteProp_comm. reflexivity.
    + assert ((T' =? T) = false) as E' by (rewrite String.eqb_sym; exact E).
      destruct (getProp T R) as [held|] eqn:EP,
               (getProp T' R) as [held'|] eqn:EP';
        try destruct held; try destruct held';
        rewrite ?getProp_setProp, ?E, ?E', ?EP, ?EP'; try reflexivity.
      eapply setProp_comm; eassumption.
Qed.

Lemma act_idem (a : Action) (R : Flds) : act a (act a R) = act a R.
Proof.
  destruct a as [T|T f]; cbn [act].
  - apply deleteProp_idem.
  - destruct (getProp T R) as [held|] eqn:EP; [|rewrite EP; reflexivity].
    destruct held; rewrite ?EP; try reflexivity.
    rewrite getProp_setProp, String.eqb_refl, setProp_setProp,
      deleteProp_idem. reflexivity.
Qed.

Lemma excludeAll_cons (e : string) (excl : list string) (R : Flds) :
  excludeAll (e :: excl) R = excludeAll excl (act (actionOf e) R).
Proof. reflexivity. Qed.

Lemma excludeAll_absorbs (e : string) (excl : list string) :
  In e excl ->
  forall R : Flds, excludeAll excl (act (actionOf e) R) = excludeAll excl R.
Proof.
  induction excl as [|e' excl IH]; intros Hin R; [destruct Hin|].
  rewrite !excludeAll_cons.
  destruct (string_dec e' e) as [->|Hne].
  - rewrite act_idem. reflexivity.
  - destruct Hin as [Heq|Hin]; [congruence|].
    rewrite act_comm. apply IH, Hin.
Qed.

Lemma excludeAll_nodup (excl : list string) (R : Flds) :
  excludeAll (nodup string_dec excl) R = excludeAll excl R.
Proof.
  revert R. induction excl as [|e excl IH]; intros R; [reflexivity|].
  cbn [nodup]. destruct (in_dec string_dec e excl) as [Hin|Hout].
  - rewrite excludeAll_cons, excludeAll_absorbs by exact Hin. apply IH.
  - rewrite !excludeAll_cons. apply IH.
Qed.

Lemma excludeAll_permutation (l l' : list string) :
  Permutation l l' -> forall R : Flds, excludeAll l R = excludeAll l' R.
Proof.
  induction 1 as [|x l l' _ IH|x y l|l l' l'' _ IH1 _ IH2]; intros R.
  - reflexivity.
  - rewrite !excludeAll_cons. apply IH.
  - rewrite !excludeAll_cons, act_comm. reflexivity.
  - rewrite IH1. apply IH2.
Qed.


(** ** How an exclusion is spelled *)

Lemma before_sep_app (T x : string) :
  dotFree T = true ->
  before_sep dot (T ++ String dot x)%string = T /\
  after_sep dot (T ++ String dot x)%string = Some x.
Proof.
  induction T as [|c T IH]; intros H.
  - split; reflexivity.
  - cbn [dotFree] in H. apply andb_true_iff in H as [Hc HT].
    apply negb_true_iff in Hc. destruct (IH HT) as [H1 H2].
    cbn [append before_sep after_sep]. rewrite Hc, H1, H2. split; reflexivity.
Qed.

Lemma before_sep_dotFree (T : string) :
  dotFree T = true -> before_sep dot T = T /\ after_sep dot T = None.
Proof.
  induction T as [|c T IH]; intros H; [split; reflexivity|].
  cbn [dotFree] in H. apply andb_true_iff in H as [Hc HT].
  apply negb_true_iff in Hc. destruct (IH HT) as [H1 H2].
  cbn [before_sep after_sep]. rewrite Hc, H1, H2. split; reflexivity.
Qed.

Lemma applyExclusion_names (R : Val) (e e' : string) :
  typeNameOf e = typeNameOf e' -> actionOf e = actionOf e' ->
  applyExclusion R e = applyExclusion R e'.
Proof.
  intros HT HA. destruct R; try (rewrite !applyExclusion_act, HA; reflexivity);
    unfold applyExclusion;
    repeat match goal with
           | |- context [match ?x with _ => _ end] => destruct x
           end; reflexivity.
Qed.

(** X11: for a type name [T] and a field name [f] without dots, the
    exclusions [T], [T.] and [T.*] do the same, and whatever follows a
    second dot is ignored: [T.f.rest] does what [T.f] does. *)
Theorem X11_spellings_of_an_exclusion (R : Val) (T f rest : string) :
  dotFree T = true ->
  dotFree f = true ->
  applyExclusion R (T ++ ".")%string = applyExclusion R T /\
  applyExclusion R (T ++ ".*")%string = applyExclusion R T /\
  applyExclusion R (T ++ "." ++ f ++ "." ++ rest)%string
  = applyExclusion R (T ++ "." ++ f)%string.
Proof.
  intros HT Hf.
  destruct (before_sep_dotFree T HT) as [T1 T2].
  assert (forall x, typeNameOf (T ++ String dot x) = T /\
                    fieldNameOf (T ++ String dot x) = Some (before_sep dot x))
    as Hparts.
  { intros x. unfold typeNameOf, fieldNameOf.
    destruct (before_sep_app T x HT) as [-> ->]. split; reflexivity. }
  assert (typeNameOf T = T /\ fieldNameOf T = None) as [HT1 HT2].
  { unfold typeNameOf, fieldNameOf. rewrite T1, T2. split; reflexivity. }
  change (T ++ ".")%string with (T ++ String dot "")%string.
  change (T ++ ".*")%string with (T ++ String dot "*")%string.
  change (T ++ "." ++ f ++ "." ++ rest)%string
    with (T ++ String dot (f ++ String dot rest))%string.
  change (T ++ "." ++ f)%string with (T ++ String dot f)%string.
  repeat split; apply applyExclusion_names; unfold actionOf;
    rewrite ?(proj1 (Hparts _)), ?(proj2 (Hparts _)), ?HT1, ?HT2;
    try reflexivity.
  destruct (before_sep_app f rest Hf) as [-> _].
  destruct (before_sep_dotFree f Hf) as [-> _]. reflexivity.
Qed.

End CoverageFacts.

(* ================================================================== *)
(** * Further properties of the store model *)

Section StoreCoverageFacts.

Import Store.

(** The three steps of a call with two or more definitions: collect and
    merge, which change no object and build the result; then the
    exclusions. *)
Lemma many_phases (fuel : nat) (l : loc) (a b : val) (rest : list val)
      (options : option MergeResolversOptions) (h : heap) (v : val)
      (h' : heap) :
  nth_error h l = Some (Arr (a :: b :: rest)) ->
  mergeResolvers (S fuel) (Ref l) options h = Some (v, h') ->
  exists h2,
    preserved h h2 /\ newIn h v /\
    applyExclusions options v h2 = Some (tt, h').
Proof.
  intros El H. cbn [mergeResolvers deref] in H. rewrite El in H.
  apply bind_inv in H as (c & h1 & Hc & H).
  apply bind_inv in H as (result & h2 & Hr & H).
  apply bind_inv in H as ([] & h3 & He & H).
  inversion H; subst; clear H.
  assert (preserved h h1) as H1.
  { eapply collect_frame; [|exact Hc].
    intros g h0 v0 h0' H0.
    eapply inputs_preserved_without_field_exclusion; [|exact H0].
    reflexivity. }
  assert (preserved h1 h2 /\ newIn h1 v) as [H2 Hnew].
  { destruct (resolversFactories c).
    - apply bind_inv in Hr as (empty & h1' & Hempty & Hred).
      apply alloc_frame in Hempty as [-> Hp1].
      apply reduce_frame in Hred as [Hp2 Hv].
      split; [eapply preserved_trans; eassumption|].
      destruct Hv as [->|Hv].
      + exists (List.length h1). split; [reflexivity|lia].
      + eapply newIn_weaken; eassumption.
    - apply alloc_frame in Hr as [-> Hp]. split; [exact Hp|].
      exists (List.length h1). split; [reflexivity|lia]. }
  exists h2. split; [eapply preserved_trans; eassumption|].
  split; [eapply newIn_weaken; eassumption|exact He].
Qed.

(** X14: a call whose exclusions, if any, all name whole types changes no
    object that existed before it: neither the definitions, nor anything
    they hold, nor the array of definitions. *)
Theorem X14_whole_type_exclusions_write_nothing
        (fuel : nat) (resolversDefinitions : val)
        (options : option MergeResolversOptions) (h : heap) (v : val)
        (h' : heap) :
  noFieldExclusion options = true ->
  mergeResolvers fuel resolversDefinitions options h = Some (v, h') ->
  preserved h h'.
Proof.
  intros Hno H.
  eapply inputs_preserved_without_field_exclusion; eassumption.
Qed.

(** X16: with two or more definitions the result is an object made by the
    call: it refers to none of the objects that existed before. *)
Theorem X16_result_is_new (fuel : nat) (l : loc) (elems : list val)
        (options : option MergeResolversOptions) (h : heap) (v : val)
        (h' : heap) :
  nth_error h l = Some (Arr elems) ->
  2 <= List.length elems ->
  mergeResolvers fuel (Ref l) options h = Some (v, h') ->
  newIn h v.
Proof.
  intros El Hlen H. destruct fuel as [|fuel]; [discriminate|].
  destruct elems as [|a [|b rest]]; cbn [List.length] in Hlen; try lia.
  destruct (many_phases _ _ _ _ El H) as (h2 & _ & Hnew & _).
  exact Hnew.
Qed.

(** ** What a field exclusion can do to the definitions *)

Lemma prunedBy_refl (names : list string) (o : obj) : prunedBy names o o.
Proof. left. reflexivity. Qed.

Lemma onlyPruned_of_preserved (names : list string) (h h' : heap) :
  preserved h h' -> onlyPruned names h h'.
Proof.
  intros Hp l o Hl. exists o. split; [apply Hp, Hl|apply prunedBy_refl].
Qed.

Lemma onlyPruned_update_fresh (names : list string) (h0 h : heap) (l : loc)
      (o : obj) :
  List.length h0 <= l -> onlyPruned names h0 h ->
  onlyPruned names h0 (update l o h).
Proof.
  intros Hl H l0 o0 E. destruct (H _ _ E) as (o' & Ho' & Hp).
  exists o'. split; [|exact Hp]. rewrite nth_error_update_other; [exact Ho'|].
  assert (l0 < List.length h0) by (apply nth_error_Some; congruence). lia.
Qed.

Lemma prunedBy_delete (names : list string) (o : obj) (ps : props)
      (k : string) :
  In k names -> prunedBy names o (Obj ps) ->
  prunedBy names o (Obj (deleteProp k ps)).
Proof.
  intros Hk [Heq|(ps0 & ks & -> & Heq & Hks)]; right.
  - subst o. exists ps, [k]. repeat split. constructor; [exact Hk|constructor].
  - inversion Heq; subst ps. exists ps0, (ks ++ [k]).
    rewrite fold_left_app. repeat split.
    apply Forall_app. split; [exact Hks|].
    constructor; [exact Hk|constructor].
Qed.

Lemma onlyPruned_delete (names : list string) (h0 h h' : heap) (v : val)
      (k : string) :
  In k names -> onlyPruned names h0 h ->
  deleteAt v k h = Some (tt, h') -> onlyPruned names h0 h'.
Proof.
  intros Hk H. unfold deleteAt.
  destruct v as [| | | | |l]; try (intros [= <-]; exact H).
  destruct (nth_error h l) as [[ps| | |]|] eqn:El;
    intros [= <-]; try exact H.
  intros l0 o0 E. destruct (H _ _ E) as (o' & Ho' & Hp).
  destruct (Nat.eq_dec l l0) as [->|Hne].
  - rewrite El in Ho'. inversion Ho'; subst o'.
    exists (Obj (deleteProp k ps)). split.
    + eapply nth_error_update_same; exact El.
    + apply prunedBy_delete; assumption.
  - exists o'. split; [|exact Hp].
    rewrite nth_error_update_other by exact Hne. exact Ho'.
Qed.

Lemma applyExclusion_action (result : val) (e : string) :
  applyExclusion result e =
  match actionOf e with
  | DelType T => deleteAt result T
  | DelField T f =>
      bind (getAt result T)
           (fun held => if truthy held then deleteAt held f else ret tt)
  end.
Proof.
  unfold applyExclusion, actionOf, fieldNameOf, typeNameOf.
  rewrite split_head, split_second.
  destruct (after_sep dot e) as [rest|]; [|reflexivity].
  destruct ((before_sep dot rest =? "") || (before_sep dot rest =? "*"));
    reflexivity.
Qed.

Lemma getAt_frame (o : val) (k : string) (h h' : heap) (v : val) :
  getAt o k h = Some (v, h') -> h' = h.
Proof.
  unfold getAt. destruct (deref h o) as [[ps| | |]|]; intros [= _ <-];
    reflexivity.
Qed.

Lemma applyEach_pruned (names : list string) (h0 : heap) (result : val)
      (excl : list string) :
  newIn h0 result ->
  (forall e T f, In e excl -> actionOf e = DelField T f -> In f names) ->
  forall h h',
    onlyPruned names h0 h ->
    applyEach result excl h = Some (tt, h') ->
    onlyPruned names h0 h'.
Proof.
  intros Hnew. induction excl as [|e excl IH]; intros Hnames h h' Hp H.
  - inversion H; subst. exact Hp.
  - cbn [applyEach] in H. apply bind_inv in H as ([] & h1 & H1 & H).
    eapply IH; [| |exact H].
    + intros e' T f Hin. apply Hnames. right. exact Hin.
    + rewrite applyExclusion_action in H1.
      destruct (actionOf e) as [T|T f] eqn:Ea.
      * destruct Hnew as (l & -> & Hl). unfold deleteAt in H1.
        destruct (nth_error h l) as [[ps| | |]|]; inversion H1; subst;
          try exact Hp.
        apply onlyPruned_update_fresh; assumption.
      * apply bind_inv in H1 as (held & h2 & Hg & H1).
        apply getAt_frame in Hg; subst h2.
        destruct (truthy held); [|inversion H1; subst; exact Hp].
        eapply onlyPruned_delete; [|exact Hp|exact H1].
        eapply Hnames; [left; reflexivity|exact Ea].
Qed.

Lemma fieldsExcluded_holds (excl : list string) (e T f : string) :
  In e excl -> actionOf e = DelField T f ->
  In f (fieldsExcluded (Some {| exclusions := Some excl |})).
Proof.
  intros Hin Ha. cbn [fieldsExcluded]. apply in_flat_map.
  exists e. split; [exact Hin|]. rewrite Ha. left. reflexivity.
Qed.


(** ** The call returns on finite definitions *)

Lemma finite_lift (n : nat) :
  forall m h h' v,
    preserved h h' -> n <= m ->
    finite n h v = true -> finite m h' v = true.
Proof.
  induction n as [|n IH]; intros m h h' v Hp Hle H.
  - destruct v; try (destruct m; reflexivity). discriminate.
  - destruct v as [| | | | |l]; try (destruct m; reflexivity).
    destruct m as [|m]; [lia|]. cbn [finite] in *.
    destruct (nth_error h l) as [o|] eqn:El; [|discriminate].
    rewrite (Hp _ _ El). destruct o as [ps|es| |]; try reflexivity.
    + rewrite forallb_forall in *. intros kv Hin.
      eapply IH; [exact Hp|lia|apply H, Hin].
    + rewrite forallb_forall in *. intros x Hin.
      eapply IH; [exact Hp|lia|apply H, Hin].
Qed.

Lemma finite_all_lift (n m : nat) (h h' : heap) (l : list val) :
  preserved h h' -> n <= m ->
  forallb (finite n h) l = true -> forallb (finite m h') l = true.
Proof.
  intros Hp Hle H. rewrite forallb_forall in *. intros x Hin.
  eapply finite_lift; [exact Hp|exact Hle|apply H, Hin].
Qed.

Lemma finite_props_lift (n m : nat) (h h' : heap) (ps : props) :
  preserved h h' -> n <= m ->
  forallb (fun kv => finite n h (snd kv)) ps = true ->
  forallb (fun kv => finite m h' (snd kv)) ps = true.
Proof.
  intros Hp Hle H. rewrite forallb_forall in *. intros x Hin.
  eapply finite_lift; [exact Hp|exact Hle|apply H, Hin].
Qed.

Lemma finite_getProp (m : nat) (h : heap) (k : string) (ps : props) (x : val) :
  forallb (fun kv => finite m h (snd kv)) ps = true ->
  getProp k ps = Some x -> finite m h x = true.
Proof.
  induction ps as [|[k0 x0] ps IH]; [discriminate|].
  cbn [forallb getProp snd]. intros H. apply andb_true_iff in H as [H0 H].
  destruct (k =? k0); [intros [= <-]; exact H0|apply IH, H].
Qed.

Lemma finite_setProp (m : nat) (h : heap) (k : string) (v : val) (ps : props) :
  forallb (fun kv => finite m h (snd kv)) ps = true ->
  finite m h v = true ->
  forallb (fun kv => finite m h (snd kv)) (setProp k v ps) = true.
Proof.
  intros H Hv. induction ps as [|[k0 x0] ps IH]; cbn [setProp forallb snd].
  - rewrite Hv. reflexivity.
  - cbn [forallb snd] in H. apply andb_true_iff in H as [H0 H].
    destruct (k =? k0); cbn [forallb snd].
    + rewrite Hv, H. reflexivity.
    + rewrite H0, (IH H). reflexivity.
Qed.

Section AssignReturns.

Variable fuel0 m : nat.
Hypothesis IHf :
  forall t s h,
    finite m h t = true -> finite m h s = true ->
    exists v h', mergeDeep fuel0 t s h = Some (v, h') /\
                 finite m h' v = true.

Lemma assign_returns (tf : props) :
  forall (sf out : props) (h : heap),
    forallb (fun kv => finite m h (snd kv)) tf = true ->
    forallb (fun kv => finite m h (snd kv)) sf = true ->
    forallb (fun kv => finite m h (snd kv)) out = true ->
    exists out' h',
      assignProps (mergeDeep fuel0) tf out sf h = Some (out', h') /\
      preserved h h' /\
      forallb (fun kv => finite m h' (snd kv)) out' = true.
Proof.
  induction sf as [|[k sv] sf IH]; intros out h Htf Hsf Hout.
  - exists out, h. repeat split; auto using preserved_refl.
  - cbn [forallb snd] in Hsf. apply andb_true_iff in Hsf as [Hsv Hsf].
    cbn [assignProps]. unfold bind.
    assert (exists v h1,
               match getProp k tf with
               | Some tv =>
                   if isPlain h tv && isPlain h sv
                   then mergeDeep fuel0 tv sv h else Some (sv, h)
               | None => Some (sv, h)
               end = Some (v, h1) /\
               preserved h h1 /\ finite m h1 v = true)
      as (v & h1 & -> & Hp & Hv).
    { destruct (getProp k tf) as [tv|] eqn:Etv;
        [|exists sv, h; auto using preserved_refl].
      destruct (isPlain h tv && isPlain h sv);
        [|exists sv, h; auto using preserved_refl].
      destruct (IHf tv sv h (finite_getProp _ _ _ _ Htf Etv) Hsv)
        as (v & h1 & Hm & Hv).
      exists v, h1. split; [exact Hm|]. split; [|exact Hv].
      eapply mergeDeep_frame; exact Hm. }
    destruct (IH (setProp k v out) h1) as (out' & h' & Hr & Hp' & Hf').
    + eapply finite_props_lift; [exact Hp|apply le_n|exact Htf].
    + eapply finite_props_lift; [exact Hp|apply le_n|exact Hsf].
    + apply finite_setProp; [|exact Hv].
      eapply finite_props_lift; [exact Hp|apply le_n|exact Hout].
    + exists out', h'. split; [exact Hr|]. split; [|exact Hf'].
      eapply preserved_trans; eassumption.
Qed.

End AssignReturns.

Lemma mergeDeep_returns (fuel : nat) :
  forall n t s h,
    finite n h t = true -> finite n h s = true -> n < fuel ->
    exists v h', mergeDeep fuel t s h = Some (v, h') /\
                 finite n h' v = true.
Proof.
  induction fuel as [|fuel IH]; intros n t s h Ht Hs Hn; [lia|].
  cbn [mergeDeep].
  destruct (deref h t) as [[tf| | |]|] eqn:Et;
    try (exists t, h; split; [reflexivity|exact Ht]).
  destruct (deref h s) as [[sf| | |]|] eqn:Es;
    try (exists t, h; split; [reflexivity|exact Ht]).
  destruct t as [| | | | |lt]; try discriminate.
  destruct s as [| | | | |ls]; try discriminate.
  cbn [deref] in Et, Es.
  destruct n as [|m]; [discriminate|]. cbn [finite] in Ht, Hs.
  rewrite Et in Ht. rewrite Es in Hs.
  destruct (assign_returns fuel m (fun t0 s0 h0 H1 H2 =>
                               IH m t0 s0 h0 H1 H2 ltac:(lia))
                           tf sf tf h Ht Hs Ht)
    as (out' & h1 & Hr & Hp & Hf).
  unfold bind. rewrite Hr. unfold alloc.
  eexists; eexists. split; [reflexivity|].
  cbn [finite]. rewrite nth_error_app2, Nat.sub_diag by lia. cbn [nth_error].
  eapply finite_props_lift; [apply preserved_app|apply le_n|exact Hf].
Qed.

Lemma reduce_returns (fuel N : nat) (arr : list val) :
  N < fuel ->
  forall acc h,
    forallb (finite N h) arr = true -> finite N h acc = true ->
    exists v h',
      reduce (mergeDeep fuel) arr acc h = Some (v, h') /\
      preserved h h' /\ finite N h' v = true.
Proof.
  intros HN. induction arr as [|x arr IH]; intros acc h Harr Hacc.
  - exists acc, h. repeat split; auto using preserved_refl.
  - cbn [forallb] in Harr. apply andb_true_iff in Harr as [Hx Harr].
    destruct (@mergeDeep_returns fuel N acc x h Hacc Hx HN)
      as (acc' & h1 & Hm & Hacc').
    pose proof (proj1 (mergeDeep_frame _ _ _ _ Hm)) as Hp.
    destruct (IH acc' h1) as (v & h' & Hr & Hp' & Hv); [|exact Hacc'|].
    + eapply finite_all_lift; [exact Hp|apply le_n|exact Harr].
    + exists v, h'. cbn [reduce]. unfold bind. rewrite Hm.
      split; [exact Hr|]. split; [|exact Hv].
      eapply preserved_trans; eassumption.
Qed.

Section CollectReturns.

Variable recur : val -> M val.
Variable m N : nat.
Hypothesis HmN : m <= N.
Hypothesis Hrec :
  forall g h,
    isArray h g = true -> finite m h g = true ->
    exists v h', recur g h = Some (v, h') /\ preserved h h' /\
                 finite N h' v = true.

Lemma collect_returns :
  forall (defs : list val) (c : Collected) (h : heap),
    forallb (finite m h) defs = true ->
    forallb (finite N h) (resolvers c) = true ->
    exists c' h',
      collect recur defs c h = Some (c', h') /\
      preserved h h' /\
      forallb (finite N h') (resolvers c') = true.
Proof.
  induction defs as [|d defs IH]; intros c h Hdefs Hc.
  - exists c, h. repeat split; auto using preserved_refl.
  - cbn [forallb] in Hdefs. apply andb_true_iff in Hdefs as [Hd Hdefs].
    cbn [collect]. unfold bind.
    assert (exists d' h1,
               (if isArray h d then recur d h else Some (d, h))
               = Some (d', h1) /\
               preserved h h1 /\ finite N h1 d' = true)
      as (d' & h1 & -> & Hp & Hd').
    { destruct (isArray h d) eqn:Ea; [apply Hrec; assumption|].
      exists d, h. split; [reflexivity|]. split; [apply preserved_refl|].
      eapply finite_lift; [apply preserved_refl|exact HmN|exact Hd]. }
    assert (exists c1,
               classify c d' h1 = Some (c1, h1) /\
               forallb (finite N h1) (resolvers c1) = true)
      as (c1 & -> & Hc1).
    { assert (forallb (finite N h1) (resolvers c) = true) as Hc'
          by (eapply finite_all_lift; [exact Hp|apply le_n|exact Hc]).
      unfold classify.
      destruct (isFunctionType h1 d'); [eexists; split; [reflexivity|exact Hc']|].
      destruct (Store.isObjectType h1 d');
        eexists; (split; [reflexivity|]); cbn [resolvers]; [|exact Hc'].
      rewrite forallb_app, Hc'. cbn [forallb]. rewrite Hd'. reflexivity. }
    destruct (IH c1 h1) as (c' & h' & Hr & Hp' & Hc'); [|exact Hc1|].
    + eapply finite_all_lift; [exact Hp|apply le_n|exact Hdefs].
    + exists c', h'. split; [exact Hr|]. split; [|exact Hc'].
      eapply preserved_trans; eassumption.
Qed.

End CollectReturns.

Lemma applyExclusions_returns (options : option MergeResolversOptions)
      (result : val) (h : heap) :
  exists h', applyExclusions options result h = Some (tt, h').
Proof.
  destruct options as [[[excl|]]|]; cbn [applyExclusions];
    try (exists h; reflexivity).
  revert h. induction excl as [|e excl IH]; intros h;
    [exists h; reflexivity|].
  cbn [applyEach]. unfold bind.
  assert (forall o k h0, exists h1, deleteAt o k h0 = Some (tt, h1)) as Hdel.
  { intros o k h0. unfold deleteAt. destruct o; try (eexists; reflexivity).
    destruct (nth_error h0 l) as [[ps| | |]|]; eexists; reflexivity. }
  assert (exists h1, applyExclusion result e h = Some (tt, h1)) as (h1 & ->).
  { rewrite applyExclusion_action.
    destruct (actionOf e) as [T|T f]; [apply Hdel|].
    unfold bind, getAt.
    destruct (deref h result) as [[ps| | |]|];
      try (cbn [truthy]; exists h; reflexivity).
    destruct (truthy _); [apply Hdel|exists h; reflexivity]. }
  apply IH.
Qed.

Lemma finite_empty (h : heap) :
  finite 1 (h ++ [Obj []]) (Ref (List.length h)) = true.
Proof.
  cbn [finite]. rewrite nth_error_app2, Nat.sub_diag by lia. reflexivity.
Qed.

(** The call without options returns on finite definitions, changes no
    object, and its result is finite in turn. *)
Lemma returns_without_options (fuel : nat) :
  forall n defs h,
    isDefinitions h defs = true -> finite n h defs = true ->
    n + 1 < fuel ->
    forall options,
    exists v h',
      mergeResolvers fuel defs options h = Some (v, h') /\
      (options = None ->
       preserved h h' /\ finite (Nat.max n 1) h' v = true).
Proof.
  induction fuel as [|fuel IH]; intros n defs h Hdefs Hfin Hn options; [lia|].
  cbn [mergeResolvers].
  assert (exists v h',
             alloc (Obj []) h = Some (v, h') /\
             (options = None ->
              preserved h h' /\ finite (Nat.max n 1) h' v = true)) as Hempty.
  { eexists; eexists. split; [reflexivity|]. intros _.
    split; [apply preserved_app|].
    eapply finite_lift; [apply preserved_refl|apply Nat.le_max_r|].
    apply finite_empty. }
  destruct defs as [| | | | |l]; try discriminate; try exact Hempty.
  cbn [isDefinitions] in Hdefs. unfold isArray in Hdefs.
  cbn [deref] in *.
  destruct (nth_error h l) as [[ps|elems| |]|] eqn:El; try discriminate.
  destruct n as [|m]; [discriminate|]. cbn [finite] in Hfin.
  rewrite El in Hfin.
  destruct elems as [|a [|b rest]]; [exact Hempty| |].
  - cbn [forallb] in Hfin. rewrite andb_true_r in Hfin.
    destruct (isArray h a) eqn:Ea.
    + destruct (IH m a h) with (options := @None MergeResolversOptions)
        as (v & h' & Hr & Hnone); [| |lia|].
      * destruct a; try discriminate. exact Ea.
      * exact Hfin.
      * exists v, h'. split; [exact Hr|]. intros _.
        destruct (Hnone eq_refl) as [Hp Hf]. split; [exact Hp|].
        eapply finite_lift; [apply preserved_refl| |exact Hf]. lia.
    + exists a, h. split; [reflexivity|]. intros _.
      split; [apply preserved_refl|].
      eapply finite_lift; [apply preserved_refl| |exact Hfin]. lia.
  - set (N := Nat.max m 1).
    assert (forall g h0,
               isArray h0 g = true -> finite m h0 g = true ->
               exists v h0', mergeResolvers fuel g None h0 = Some (v, h0') /\
                             preserved h0 h0' /\ finite N h0' v = true)
      as Hrec.
    { intros g h0 Hg Hf.
      destruct (IH m g h0) with (options := @None MergeResolversOptions)
        as (v & h0' & Hr & Hnone); [| |lia|].
      - destruct g; try discriminate. exact Hg.
      - exact Hf.
      - destruct (Hnone eq_refl) as [Hp Hfv]. exists v, h0'.
        repeat split; auto. }
    destruct (@collect_returns (fun group => mergeResolvers fuel group None)
                               m N (Nat.le_max_l m 1) Hrec
                               (a :: b :: rest) noneCollected h)
      as (c & h1 & Hc & Hp1 & Hfc).
    { exact Hfin. }
    { reflexivity. }
    unfold bind. rewrite Hc.
    assert (exists result h2,
               match resolversFactories c with
               | [] => bind (alloc (Obj []))
                            (fun empty => reduce (mergeDeep fuel)
                                                 (resolvers c) empty)
               | _ :: _ => alloc (Merged (resolvers c) (resolversFactories c))
               end h1 = Some (result, h2) /\
               preserved h1 h2 /\ finite N h2 result = true)
      as (result & h2 & Hr & Hp2 & Hfr).
    { destruct (resolversFactories c).
      - unfold bind, alloc.
        assert (N < fuel) as HN by (unfold N; lia).
        destruct (@reduce_returns fuel N (resolvers c) HN
                    (Ref (List.length h1)) (h1 ++ [Obj []]))
          as (v & h2 & Hr & Hp & Hv).
        + eapply finite_all_lift; [apply preserved_app|apply le_n|exact Hfc].
        + eapply finite_lift; [apply preserved_refl| |apply finite_empty].
          unfold N. lia.
        + exists v, h2. split; [exact Hr|]. split; [|exact Hv].
          eapply preserved_trans; [apply preserved_app|exact Hp].
      - unfold alloc. eexists; eexists. split; [reflexivity|].
        split; [apply preserved_app|].
        unfold N. destruct (Nat.max m 1) eqn:EN; [lia|].
        cbn [finite]. rewrite nth_error_app2, Nat.sub_diag by lia.
        reflexivity. }
    unfold bind in Hr. unfold bind. rewrite Hr.
    destruct (applyExclusions_returns options result h2) as (h3 & He).
    rewrite He. exists result, h3. split; [reflexivity|].
    intros ->. cbn [applyExclusions] in He. inversion He; subst h3.
    split; [eapply preserved_trans; eassumption|].
    eapply finite_lift; [apply preserved_refl| |exact Hfr]. unfold N. lia.
Qed.


End StoreCoverageFacts.

(* ================================================================== *)
(** * The properties at concrete calls *)

Section ExampleFacts.

Import Examples.

(** The properties listed by the specification as tests. *)

Example disjoint_keys :
  mergeResolvers (Some [obj [("A", obj [("x", num 1)])]; mapB]) None = mapAB.
Proof. reflexivity. Qed.

Example exclusion_of_a_field :
  mergeResolvers (Some [mapA; mapAz]) (withExclusions ["A.y"])
  = obj [("A", obj [("x", num 0); ("z", num 3)])].
Proof. reflexivity. Qed.

Example exclusion_of_a_type :
  mergeResolvers (Some [obj [("A", obj [("x", num 1)])]; mapB])
                 (withExclusions ["A"]) = mapB /\
  mergeResolvers (Some [obj [("A", obj [("x", num 1)])]; mapB])
                 (withExclusions ["A.*"]) = mapB /\
  mergeResolvers (Some [mapAB]) (withExclusions ["A.*"]) = mapAB.
Proof. repeat split. Qed.

Example factories_called_in_order :
  call (mergeResolvers (Some [f1; f2]) None) 5%Z []
  = (obj [("A", obj [("x", num 6)]); ("B", obj [("y", num 2)])], ["f1"; "f2"]) /\
  call (mergeResolvers (Some [f2; f1]) None) 5%Z []
  = (obj [("A", obj [("x", num 5)]); ("B", obj [("y", num 2)])], ["f2"; "f1"]).
Proof. split; reflexivity. Qed.

(** The call of [Store.sharedDefinitions] without options: the result read
    back from the store is the result of the tree model. *)
Example store_agrees_with_tree :
  exists result h',
    Store.mergeResolvers 3 Store.sharedDefinitions None Store.sharedStore
      = Some (result, h') /\
    Store.preserved Store.sharedStore h' /\
    read (Args:=Z) (World:=Log) 3 h' result
      = Some (mergeResolvers
                (Some [obj [("A", obj [("x", num 1); ("y", num 2)])];
                       obj [("B", obj [("z", num 3)])]]) None).
Proof.
  eexists; eexists. split; [vm_compute; reflexivity|]. split.
  - apply (preserved_app Store.sharedStore
             [Store.Obj []; Store.Obj [("A", Store.Ref 0)];
              Store.Obj [("A", Store.Ref 0); ("B", Store.Ref 2)]]).
  - reflexivity.
Qed.


(** The claim C2 as it is stated fails when both field values are mappings:
    the later definition gives [Subscription.tick] the value [{subscribe: 3}],
    and the result holds [{subscribe: 3, resolve: 2}] there. *)
Lemma C2_later_mapping_is_merged :
  fieldAt "Subscription" "tick" subscriptionFull
    = Some (obj [("subscribe", num 1); ("resolve", num 2)]) /\
  fieldAt "Subscription" "tick" subscriptionPart
    = Some (obj [("subscribe", num 3)]) /\
  fieldAt "Subscription" "tick"
          (mergeResolvers (Some [subscriptionFull; subscriptionPart]) None)
    = Some (obj [("subscribe", num 3); ("resolve", num 2)]) /\
  fieldAt "Subscription" "tick"
          (mergeResolvers (Some [subscriptionFull; subscriptionPart]) None)
    <> fieldAt "Subscription" "tick" subscriptionPart.
Proof. repeat split. discriminate. Qed.

Lemma C2_witness :
  2 <= List.length [mapA; obj [("A", obj [("x", num 7)])]; mapB] /\
  forallb isMap [mapA; obj [("A", obj [("x", num 7)])]; mapB] = true /\
  forallb wf [mapA; obj [("A", obj [("x", num 7)])]; mapB] = true /\
  fieldAt "A" "x"
          (mergeResolvers (Some [mapA; obj [("A", obj [("x", num 7)])]; mapB]) None)
    = Some (num 7).
Proof.
  split; [simpl; lia|]. split; [reflexivity|]. split; [reflexivity|].
  destruct (@C2_later_definition_wins Z Log
              [mapA; obj [("A", obj [("x", num 7)])]; mapB])
    as (_ & Hfield & _); [simpl; lia|reflexivity|reflexivity|].
  destruct (Hfield [mapA] (obj [("A", obj [("x", num 7)])]) [mapB]
                   "A" "x" (num 7) eq_refl eq_refl eq_refl) as [_ H].
  apply H. reflexivity.
Defined.



Lemma C4_witness :
  isArray mapAB = false /\
  mergeResolvers (Some [mapAB]) (withExclusions ["A"]) = mapAB.
Proof.
  split; [reflexivity|].
  apply (@C4_single_definition_unchanged Z Log mapAB (withExclusions ["A"])).
  reflexivity.
Defined.

Lemma C7_witness :
  isFunction (flatten (VArr [VArr [VStr "x"]] : V)) = false /\
  isMap (flatten (VArr [VArr [VStr "x"]] : V)) = false /\
  1 <= List.length ([VNull; mapA] ++ [num 3; mapB]) /\
  sameResult
    (mergeResolvers (Some ([VNull; mapA] ++ VArr [VArr [VStr "x"]] :: [num 3; mapB]))
                    (withExclusions ["B"]))
    (mergeResolvers (Some ([VNull; mapA] ++ [num 3; mapB]))
                    (withExclusions ["B"])).
Proof.
  split; [reflexivity|]. split; [reflexivity|]. split; [simpl; lia|].
  apply (@C7_unrecognised_definition_dropped Z Log [VNull; mapA] [num 3; mapB]
           (VArr [VArr [VStr "x"]]) (withExclusions ["B"]));
    [reflexivity|reflexivity|simpl; lia|simpl; lia].
Defined.

Lemma C8_witness :
  isMap mapAB = true /\ wf mapAB = true /\
  mergeResolvers (Some [mapAB; mapAB]) None = mapAB.
Proof.
  split; [reflexivity|]. split; [reflexivity|].
  apply (@C8_merge_with_itself Z Log mapAB); reflexivity.
Defined.


End ExampleFacts.

(* ================================================================== *)
(** * The further properties at concrete calls *)

Section CoverageExamples.

Import Examples.


Lemma X5_witness :
  2 <= List.length [f1; mapA; num 3; f2] /\
  2 <= List.length [mapA; f1; f2] /\
  filter isFunction (map flatten [f1; mapA; num 3; f2])
    = filter isFunction (map flatten [mapA; f1; f2]) /\
  filter isObjectType (map flatten [f1; mapA; num 3; f2])
    = filter isObjectType (map flatten [mapA; f1; f2]) /\
  mergeResolvers (Some [f1; mapA; num 3; f2]) None
    = mergeResolvers (Some [mapA; f1; f2]) None.
Proof.
  split; [simpl; lia|]. split; [simpl; lia|].
  split; [reflexivity|]. split; [reflexivity|].
  apply (@X5_only_the_two_orders_matter Z Log [f1; mapA; num 3; f2]
           [mapA; f1; f2] None);
    [simpl; lia|simpl; lia|reflexivity|reflexivity].
Defined.






Lemma X11_witness :
  dotFree "A" = true /\ dotFree "x" = true /\
  applyExclusion mapAB "A." = applyExclusion mapAB "A" /\
  applyExclusion mapAB "A.*" = applyExclusion mapAB "A" /\
  applyExclusion mapAB "A.x.y.z" = applyExclusion mapAB "A.x".
Proof.
  split; [reflexivity|]. split; [reflexivity|].
  apply (@X11_spellings_of_an_exclusion Z Log mapAB "A" "x" "y.z");
    reflexivity.
Defined.


Lemma X14_witness :
  Store.noFieldExclusion (withExclusions ["A"]) = true /\
  Store.mergeResolvers 3 Store.sharedDefinitions (withExclusions ["A"])
                       Store.sharedStore
  = Some (Store.Ref 7, storeAfterType) /\
  Store.preserved Store.sharedStore storeAfterType.
Proof.
  split; [reflexivity|]. split; [reflexivity|].
  apply (@X14_whole_type_exclusions_write_nothing 3 Store.sharedDefinitions
           (withExclusions ["A"]) Store.sharedStore (Store.Ref 7)
           storeAfterType);
    reflexivity.
Defined.


Lemma X16_witness :
  nth_error Store.sharedStore 4
  = Some (Store.Arr [Store.Ref 1; Store.Ref 3]) /\
  2 <= List.length [Store.Ref 1; Store.Ref 3] /\
  Store.mergeResolvers 3 (Store.Ref 4) Store.sharedOptions Store.sharedStore
  = Some (Store.Ref 7, storeAfterField) /\
  Store.newIn Store.sharedStore (Store.Ref 7).
Proof.
  split; [reflexivity|]. split; [simpl; lia|]. split; [reflexivity|].
  apply (@X16_result_is_new 3 4 [Store.Ref 1; Store.Ref 3]
           Store.sharedOptions Store.sharedStore (Store.Ref 7)
           storeAfterField);
    [reflexivity|simpl; lia|reflexivity].
Defined.


End CoverageExamples.
